(** * aize_mem: the scope-bound allocator of the Aize runtime

    A shallow embedding of [src/aizec/std/aize_mem.c] and the properties
    of its ledger ([aize_mem_bound]) and depth counter ([aize_mem_depth]).

    The C code is modelled on an LP64 platform: [size_t] is 64 bits wide,
    [int] and [uint32_t] are 32 bits wide and a pointer occupies 8 bytes.
    Unsigned arithmetic wraps; an access outside allocated storage, through
    a null pointer or depending on an indeterminate value is a [Fault]. *)

From Stdlib Require Import ZArith Lia.
From stdpp Require Import gmap list.

Local Open Scope Z_scope.

(** ** Platform *)

Definition sizeof_ptr : Z := 8.
Definition INT_MAX : Z := 2 ^ 31 - 1.

(** Arithmetic on [size_t] and on [uint32_t] wraps around. *)
Definition size_t (z : Z) : Z := z mod 2 ^ 64.
Definition uint32_t (z : Z) : Z := z mod 2 ^ 32.

(** [int i = x] for a [size_t] x: the low 32 bits, read as two's complement. *)
Definition int_of_size_t (z : Z) : Z :=
  let r := z mod 2 ^ 32 in if r <? 2 ^ 31 then r else r - 2 ^ 32.

(** ** Faults and the error monad *)

Inductive fault : Type :=
  | NullDeref
  | OutOfBounds (i : Z)
  | WildPointer (p : Z)
  | IndeterminateRead
  | SignedOverflow.

Inductive result (A : Type) : Type :=
  | Ok (a : A)
  | Fault (f : fault).
Arguments Ok {A} a.
Arguments Fault {A} f.

Definition bind {A B : Type} (r : result A) (k : A -> result B) : result B :=
  match r with
  | Ok a => k a
  | Fault f => Fault f
  end.

Notation "'let*' x ':=' e 'in' k" := (bind e (fun x => k))
  (at level 10, x name, e at level 100, k at level 200).

(** ** Data model *)

(** Modelled from the spec: the object header [AizeBase] is declared in
    [aize_mem.h], which is not part of the sources.  The spec gives it the two
    unsigned fields [depth] and [ref_count]; they are taken to be 32 bits wide,
    like [aize_mem_depth].  A field of freshly obtained storage holds no
    determinate value ([None]) until somebody stores into it. *)
Record AizeBase : Type := mkBase {
  depth : option Z;
  ref_count : option Z
}.

(** A block handed out by the C allocator: its size and the header at its
    start.  The rest of the object's content plays no part here. *)
Record Block : Type := mkBlock {
  blk_bytes : Z;
  blk_hdr : AizeBase
}.

(** One pointer-sized cell of the ledger's buffer. *)
Inductive slot : Type :=
  | Indet
  | Ptr (p : Z).

(** [struct AizeMemArrayList].  [arr] is [None] for the null pointer and
    otherwise the cells that fit in the storage the pointer refers to. *)
Record AizeMemArrayList : Type := mkList {
  capacity : Z;
  len : Z;
  arr : option (list slot)
}.

(** The program state: the two globals of the source, the objects obtained
    from the C allocator (allocated means: in the domain of [heap]) and the
    number of bytes the allocator is still able to hand out. *)
Record State : Type := mkState {
  aize_mem_bound : AizeMemArrayList;
  aize_mem_depth : Z;
  heap : gmap Z Block;
  avail : Z
}.

Definition set_bound (b : AizeMemArrayList) (s : State) : State :=
  mkState b (aize_mem_depth s) (heap s) (avail s).
Definition set_depth (d : Z) (s : State) : State :=
  mkState (aize_mem_bound s) d (heap s) (avail s).
Definition set_heap (h : gmap Z Block) (s : State) : State :=
  mkState (aize_mem_bound s) (aize_mem_depth s) h (avail s).
Definition set_avail (a : Z) (s : State) : State :=
  mkState (aize_mem_bound s) (aize_mem_depth s) (heap s) a.

(** [struct AizeMemArrayList aize_mem_bound = {0, 0, 0}; uint32_t aize_mem_depth = 1;] *)
Definition initial (budget : Z) : State :=
  mkState (mkList 0 0 None) 1 ∅ budget.

Definition START_SIZE : Z := 256.
Definition SCALE_FACTOR : Z := 2.
Definition SHRINK_WHEN : Z := 4.
(** Defined by the source and used nowhere in it. *)
Definition SHRINK_FACTOR : Z := 2.

(** ** The C allocator *)

(** An address no block of [h] has; never the null pointer. *)
Definition fresh_addr (h : gmap Z Block) : Z :=
  1 + map_fold (fun k _ acc => Z.max k acc) 0 h.

(** [malloc(bytes)] for an object: the null pointer when the request cannot
    be met, otherwise a new block whose content is indeterminate. *)
Definition c_malloc (bytes : Z) (s : State) : Z * State :=
  if bytes <=? avail s then
    let p := fresh_addr (heap s) in
    (p, set_avail (avail s - bytes)
          (set_heap (<[p := mkBlock bytes (mkBase None None)]> (heap s)) s))
  else (0, s).

(** [malloc(bytes)] for the ledger's buffer: [bytes / sizeof_ptr] whole
    cells, all indeterminate. *)
Definition buf_malloc (bytes : Z) (s : State) : option (list slot) * State :=
  if bytes <=? avail s then
    (Some (replicate (Z.to_nat (bytes / sizeof_ptr)) Indet),
     set_avail (avail s - bytes) s)
  else (None, s).

(** [realloc(old, bytes)]: the content is kept up to the smaller of the two
    sizes, new cells are indeterminate.  On failure the result is the null
    pointer and the old block stays allocated. *)
Definition buf_realloc (old : option (list slot)) (bytes : Z) (s : State)
  : option (list slot) * State :=
  match old with
  | None => buf_malloc bytes s
  | Some l =>
      let old_bytes := sizeof_ptr * Z.of_nat (length l) in
      if bytes <=? avail s + old_bytes then
        (Some (resize (Z.to_nat (bytes / sizeof_ptr)) Indet l),
         set_avail (avail s + old_bytes - bytes) s)
      else (None, s)
  end.

(** ** Memory accesses *)

(** [a[i] = v] *)
Definition store_slot (a : option (list slot)) (i : Z) (v : slot)
  : result (list slot) :=
  match a with
  | None => Fault NullDeref
  | Some l =>
      if (0 <=? i) && (i <? Z.of_nat (length l))
      then Ok (<[Z.to_nat i := v]> l)
      else Fault (OutOfBounds i)
  end.

(** [a[i]], used as a pointer afterwards. *)
Definition load_slot (a : option (list slot)) (i : Z) : result Z :=
  match a with
  | None => Fault NullDeref
  | Some l =>
      if 0 <=? i then
        match l !! Z.to_nat i with
        | None => Fault (OutOfBounds i)
        | Some Indet => Fault IndeterminateRead
        | Some (Ptr p) => Ok p
        end
      else Fault (OutOfBounds i)
  end.

(** The header [obj] points to. *)
Definition load_hdr (obj : Z) (h : gmap Z Block) : result AizeBase :=
  if obj =? 0 then Fault NullDeref
  else match h !! obj with
       | None => Fault (WildPointer obj)
       | Some b => Ok (blk_hdr b)
       end.

(** [obj->depth], a value the control flow depends on. *)
Definition load_depth (obj : Z) (h : gmap Z Block) : result Z :=
  let* hd := load_hdr obj h in
  match depth hd with
  | None => Fault IndeterminateRead
  | Some d => Ok d
  end.

(** [obj->ref_count != 0]; an indeterminate count may compare either way,
    and both ways lead to the same place. *)
Definition ref_count_nonzero (obj : Z) (h : gmap Z Block) : bool :=
  match h !! obj with
  | Some b =>
      match ref_count (blk_hdr b) with
      | Some r => negb (r =? 0)
      | None => false
      end
  | None => false
  end.

(** [obj->depth = d] on an allocated object. *)
Definition store_depth (obj : Z) (d : Z) (h : gmap Z Block) : gmap Z Block :=
  alter (fun b => mkBlock (blk_bytes b) (mkBase (Some d) (ref_count (blk_hdr b)))) obj h.

(** [obj->ref_count = r] on an allocated object. *)
Definition store_ref_count (obj : Z) (r : Z) (h : gmap Z Block) : gmap Z Block :=
  alter (fun b => mkBlock (blk_bytes b) (mkBase (depth (blk_hdr b)) (Some r))) obj h.

(** [memset(a + start, 0, nbytes)] over whole cells; nothing is touched when
    [nbytes] is zero. *)
Definition memset_null (a : option (list slot)) (start nbytes : Z)
  : result (option (list slot)) :=
  if nbytes =? 0 then Ok a
  else match a with
       | None => Fault NullDeref
       | Some l =>
           let n := nbytes / sizeof_ptr in
           if (0 <=? start) && (start + n <=? Z.of_nat (length l)) then
             Ok (Some (take (Z.to_nat start) l
                       ++ replicate (Z.to_nat n) (Ptr 0)
                       ++ drop (Z.to_nat (start + n)) l))
           else Fault (OutOfBounds start)
       end.

(** ** The functions of aize_mem.c *)

Definition aize_mem_enter (s : State) : State :=
  set_depth (uint32_t (aize_mem_depth s + 1)) s.

Definition aize_mem_add_mem (mem : Z) (s : State) : result State :=
  let b := aize_mem_bound s in
  let s1 :=
    if len b =? capacity b then
      if len b =? 0 then
        let '(a, s') := buf_malloc START_SIZE s in
        set_bound (mkList START_SIZE (len b) a) s'
      else
        let '(a, s') := buf_realloc (arr b) (size_t (capacity b * SCALE_FACTOR)) s in
        set_bound (mkList (size_t (capacity b * SCALE_FACTOR)) (len b) a) s'
    else s in
  let b1 := aize_mem_bound s1 in
  let* a1 := store_slot (arr b1) (len b1) (Ptr mem) in
  Ok (set_bound (mkList (capacity b1) (size_t (len b1 + 1)) (Some a1)) s1).

Definition aize_mem_pop_mem (num : Z) (s : State) : result State :=
  let b := aize_mem_bound s in
  let* a1 := memset_null (arr b) (size_t (len b - num)) (size_t (num * sizeof_ptr)) in
  let len1 := size_t (len b - num) in
  if (SCALE_FACTOR * START_SIZE <? capacity b)
     && (size_t (len1 - num) <? capacity b / SHRINK_WHEN)
  then
    let '(a2, s') := buf_realloc a1 (capacity b / SCALE_FACTOR) s in
    Ok (set_bound (mkList (capacity b / SCALE_FACTOR) len1 a2) s')
  else Ok (set_bound (mkList (capacity b) len1 a1) s).

(** The function is declared to return [void*] but control reaches its
    closing brace: the caller receives no value ([None]). *)
Definition aize_mem_malloc (bytes : Z) (s : State) : result (State * option Z) :=
  let '(mem, s1) := c_malloc bytes s in
  let* s2 := aize_mem_add_mem mem s1 in
  Ok (s2, None).

(** The locals of [aize_mem_collect] together with the object store the
    loop writes to. *)
Record scan : Type := mkScan {
  num_to_pop : Z;
  ret_obj : Z;
  scan_heap : gmap Z Block
}.

(** [num_to_pop++] on an [int]. *)
Definition incr_num (sc : scan) : result scan :=
  if num_to_pop sc =? INT_MAX then Fault SignedOverflow
  else Ok (mkScan (num_to_pop sc + 1) (ret_obj sc) (scan_heap sc)).

(** The [for] loop of [aize_mem_collect], with [i + 1 = n] at the head of
    the loop.  The first component lists, in order, the indices at which
    the buffer was read. *)
Fixpoint collect_loop (n : nat) (cur : Z) (a : option (list slot)) (sc : scan)
  : list Z * result scan :=
  match n with
  | O => ([], Ok sc)
  | S n' =>
      let i := Z.of_nat n' in
      match load_slot a i with
      | Fault f => ([i], Fault f)
      | Ok obj =>
          match load_depth obj (scan_heap sc) with
          | Fault f => ([i], Fault f)
          | Ok d =>
              if cur <=? d then
                let sc0 :=
                  if ref_count_nonzero obj (scan_heap sc)
                  then sc (* TODO handle 'floating' objects eventually *)
                  else sc in
                match incr_num sc0 with
                | Fault f => ([i], Fault f)
                | Ok sc1 => let '(t, r) := collect_loop n' cur a sc1 in (i :: t, r)
                end
              else if d =? 0 then
                let sc1 := mkScan (num_to_pop sc) obj
                             (store_depth obj (uint32_t (cur - 1)) (scan_heap sc)) in
                match incr_num sc1 with
                | Fault f => ([i], Fault f)
                | Ok sc2 => let '(t, r) := collect_loop n' cur a sc2 in (i :: t, r)
                end
              else ([i], Ok sc)
          end
      end
  end.

(** The loop as [aize_mem_collect] starts it: [int i = aize_mem_bound.len]. *)
Definition collect_scan (s : State) : list Z * result scan :=
  collect_loop (Z.to_nat (int_of_size_t (len (aize_mem_bound s)) + 1))
    (aize_mem_depth s) (arr (aize_mem_bound s)) (mkScan 0 0 (heap s)).

Definition aize_mem_collect (s : State) : result State :=
  let* sc := snd (collect_scan s) in
  let* s1 := aize_mem_pop_mem (size_t (num_to_pop sc)) (set_heap (scan_heap sc) s) in
  if ret_obj sc =? 0 then Ok s1
  else aize_mem_add_mem (ret_obj sc) s1.

Definition aize_mem_exit (s : State) : result State :=
  let* s1 := aize_mem_collect s in
  Ok (set_depth (uint32_t (aize_mem_depth s1 - 1)) s1).

(** ** Operations of the surrounding code *)

(** Modelled from the spec: [markForReturn(objectRef)] is not a function of
    [aize_mem.c]; the spec describes it as setting [objectRef.depth = 0]. *)
Definition mark_for_return (obj : Z) (s : State) : State :=
  set_heap (store_depth obj 0 (heap s)) s.

(** The caller filling in a header after an allocation. *)
Definition init_header (obj : Z) (d r : Z) (s : State) : State :=
  set_heap (store_ref_count obj r (store_depth obj d (heap s))) s.

(** The entries the ledger records: the first [len] cells of its buffer. *)
Definition ledger (s : State) : list slot :=
  match arr (aize_mem_bound s) with
  | None => []
  | Some l => take (Z.to_nat (len (aize_mem_bound s))) l
  end.

(** ** States the interface can produce *)

(** A cell that cannot be used as a reference to an object. *)
Definition unreadable (o : option slot) : Prop :=
  o = None \/ o = Some Indet \/ o = Some (Ptr 0).

(** No cell at or above index [len] holds a usable reference. *)
Definition fresh_top (b : AizeMemArrayList) : Prop :=
  0 <= len b < 2 ^ 31 /\
  forall l, arr b = Some l ->
    Z.of_nat (length l) < 2 ^ 31 /\
    forall i : nat, len b <= Z.of_nat i -> unreadable (l !! i).

(** What a program can reach from the initial state through [enter],
    [malloc], [exit] and stores to the header fields of its objects. *)
Inductive reachable : State -> Prop :=
  | reach_initial budget : reachable (initial budget)
  | reach_enter s : reachable s -> reachable (aize_mem_enter s)
  | reach_malloc s bytes s' r :
      reachable s -> aize_mem_malloc bytes s = Ok (s', r) -> reachable s'
  | reach_exit s s' :
      reachable s -> aize_mem_exit s = Ok s' -> reachable s'
  | reach_store_depth s obj d :
      reachable s -> reachable (set_heap (store_depth obj d (heap s)) s)
  | reach_store_ref_count s obj r :
      reachable s -> reachable (set_heap (store_ref_count obj r (heap s)) s).

Definition rmap {A B : Type} (f : A -> B) (r : result A) : result B :=
  match r with
  | Ok a => Ok (f a)
  | Fault e => Fault e
  end.

(** The state, respectively the locals of the scan, with [obj->ref_count = v]
    stored. *)
Definition with_ref_count (p v : Z) (s : State) : State :=
  set_heap (store_ref_count p v (heap s)) s.
Definition scan_with_ref_count (p v : Z) (sc : scan) : scan :=
  mkScan (num_to_pop sc) (ret_obj sc) (store_ref_count p v (scan_heap sc)).

(** Storage is released when an object that was allocated no longer is. *)
Definition released (p : Z) (s s' : State) : Prop :=
  p ∈ dom (heap s) /\ p ∉ dom (heap s').

(** ** Sample states *)

(** The state after an allocation, the state itself when it faults. *)
Definition after_malloc (bytes : Z) (s : State) : State :=
  match aize_mem_malloc bytes s with
  | Ok (s', _) => s'
  | Fault _ => s
  end.

(** The state in which cell [i] of the buffer holds the value [v]: one of
    the states a run can be in when that cell is indeterminate. *)
Definition fill_cell (i : nat) (v : Z) (s : State) : State :=
  let b := aize_mem_bound s in
  set_bound (mkList (capacity b) (len b)
               ((fun l => <[i := Ptr v]> l) <$> arr b)) s.

(** One object allocated at depth 1, then a scope with two more; the caller
    has filled in the headers, and object 3 is referenced from outside. *)
Definition scope_of_two : State :=
  init_header 3 2 1 (after_malloc 16
    (init_header 2 2 0 (after_malloc 16
      (aize_mem_enter
        (init_header 1 1 0 (after_malloc 16 (initial 4096))))))).

(** [scope_of_two] with the bits of the reference to object 3 in the cell
    above the top of the ledger. *)
Definition stale_top : State :=
  mkState
    (mkList 256 3 (Some ([Ptr 1; Ptr 2; Ptr 3; Ptr 3] ++ replicate 28 Indet)))
    2
    (<[1 := mkBlock 16 (mkBase (Some 1) (Some 0))]>
       (<[2 := mkBlock 16 (mkBase (Some 2) (Some 0))]>
          (<[3 := mkBlock 16 (mkBase (Some 2) (Some 1))]> ∅)))
    3792.

(** A ledger of [n] entries over a buffer with room for [cap] cells,
    with [cap] as its capacity. *)
Definition roomy (cap n : Z) : State :=
  mkState
    (mkList cap n (Some (replicate (Z.to_nat n) (Ptr 1)
                         ++ replicate (Z.to_nat (cap - n)) Indet)))
    1 (<[1 := mkBlock 16 (mkBase (Some 1) (Some 0))]> ∅) 0.

(** [k] appends of the null reference, stopping at the first fault. *)
Fixpoint add_many (k : nat) (s : State) : result State :=
  match k with
  | O => Ok s
  | S k' => let* s1 := add_many k' s in aize_mem_add_mem 0 s1
  end.

(** ** Further notions *)

(** The content of cell [i] of the ledger's buffer, if there is such a cell. *)
Definition cell (s : State) (i : Z) : option slot :=
  match arr (aize_mem_bound s) with
  | None => None
  | Some l => if 0 <=? i then l !! Z.to_nat i else None
  end.

(** The ledger as the first append lays it out and later appends keep it:
    no buffer yet, or the 32 cells of [malloc(START_SIZE)] under a capacity
    of 256, and at most 32 entries. *)
Definition small_ledger (b : AizeMemArrayList) : Prop :=
  0 <= len b <= 32 /\
  ((capacity b = 0 /\ len b = 0 /\ arr b = None) \/
   (capacity b = START_SIZE /\ exists l, arr b = Some l /\ length l = 32%nat)).

(** The shrink test of [aize_mem_pop_mem] cannot pass. *)
Definition no_shrink (b : AizeMemArrayList) : Prop :=
  capacity b <= SCALE_FACTOR * START_SIZE.

(** One object allocated at depth 1, then a scope with two more, of which
    object 2 is marked for return; the caller has filled in the headers. *)
Definition scope_with_return : State :=
  init_header 3 2 0 (after_malloc 16
    (mark_for_return 2 (init_header 2 2 0 (after_malloc 16
      (aize_mem_enter
        (init_header 1 1 0 (after_malloc 16 (initial 4096)))))))).

(** [scope_with_return] with the bits of the reference to object 3 in the
    cell above the top of the ledger. *)
Definition returning_top : State := fill_cell 3 3 scope_with_return.


(** * Properties *)

Section Basics.

Lemma bind_ok {A B} (r : result A) (k : A -> result B) b :
  bind r k = Ok b -> exists a, r = Ok a /\ k a = Ok b.
Proof. destruct r as [a|f]; simpl; [eauto | discriminate]. Qed.

Lemma size_t_small z : 0 <= z < 2 ^ 64 -> size_t z = z.
Proof. intros. unfold size_t. apply Z.mod_small. lia. Qed.

Lemma size_t_le z : 0 <= z -> size_t z <= z.
Proof. intros. unfold size_t. apply Z.mod_le; lia. Qed.

Lemma int_of_size_t_small z : 0 <= z < 2 ^ 31 -> int_of_size_t z = z.
Proof.
  intros H. unfold int_of_size_t.
  rewrite Z.mod_small by lia.
  destruct (z <? 2 ^ 31) eqn:E; [done | apply Z.ltb_ge in E; lia].
Qed.

Lemma buf_realloc_length old bytes s l s' :
  buf_realloc old bytes s = (Some l, s') ->
  length l = Z.to_nat (bytes / sizeof_ptr).
Proof.
  unfold buf_realloc, buf_malloc. intros H.
  destruct old as [l0|].
  - destruct (bytes <=? avail s + _); inversion H; subst. apply length_resize.
  - destruct (bytes <=? avail s); inversion H; subst. apply length_replicate.
Qed.

Lemma buf_realloc_heap old bytes s a s' :
  buf_realloc old bytes s = (a, s') ->
  heap s' = heap s /\ aize_mem_depth s' = aize_mem_depth s.
Proof.
  unfold buf_realloc, buf_malloc. intros H.
  destruct old as [l0|];
    [destruct (bytes <=? avail s + _) | destruct (bytes <=? avail s)];
    inversion H; subst; done.
Qed.

End Basics.

Section Append.

(** A full, non-empty ledger: the buffer is resized to [capacity * 2] bytes,
    which hold fewer than [capacity] cells, and the store at index [len]
    misses it. *)
Lemma add_mem_full_fault mem s :
  len (aize_mem_bound s) = capacity (aize_mem_bound s) ->
  0 < len (aize_mem_bound s) ->
  aize_mem_add_mem mem s = Fault NullDeref \/
  aize_mem_add_mem mem s = Fault (OutOfBounds (len (aize_mem_bound s))).
Proof.
  intros Hfull Hpos. unfold aize_mem_add_mem.
  destruct (len (aize_mem_bound s) =? capacity (aize_mem_bound s)) eqn:E1;
    [| apply Z.eqb_neq in E1; lia].
  destruct (len (aize_mem_bound s) =? 0) eqn:E2; [apply Z.eqb_eq in E2; lia |].
  destruct (buf_realloc _ _ s) as [a s'] eqn:ER. simpl.
  destruct a as [l|]; [right | by left].
  apply buf_realloc_length in ER.
  assert (Hl : Z.of_nat (length l) <= len (aize_mem_bound s)).
  { rewrite ER, <- Hfull. unfold sizeof_ptr, SCALE_FACTOR.
    pose proof (size_t_le (len (aize_mem_bound s) * 2)) as Hle.
    destruct (Z.le_gt_cases 0 (size_t (len (aize_mem_bound s) * 2) / 8)) as [Hnn|Hneg].
    - rewrite Z2Nat.id by done.
      assert (size_t (len (aize_mem_bound s) * 2) / 8
              <= (len (aize_mem_bound s) * 2) / 8)
        by (apply Z.div_le_mono; lia).
      assert ((len (aize_mem_bound s) * 2) / 8 <= len (aize_mem_bound s))
        by (apply Z.div_le_upper_bound; lia).
      lia.
    - rewrite Z2Nat.nonpos by lia. simpl. lia. }
  unfold store_slot.
  destruct (0 <=? len (aize_mem_bound s)); simpl; [| done].
  destruct (len (aize_mem_bound s) <? Z.of_nat (length l)) eqn:E3; [| done].
  apply Z.ltb_lt in E3. lia.
Qed.

(** What a successful append does to the ledger. *)
Lemma add_mem_ok mem s s' :
  aize_mem_add_mem mem s = Ok s' ->
  exists l,
    arr (aize_mem_bound s') = Some l /\
    0 <= len (aize_mem_bound s) < Z.of_nat (length l) /\
    l !! Z.to_nat (len (aize_mem_bound s)) = Some (Ptr mem) /\
    len (aize_mem_bound s') = size_t (len (aize_mem_bound s) + 1) /\
    heap s' = heap s /\ aize_mem_depth s' = aize_mem_depth s.
Proof.
  unfold aize_mem_add_mem. intros H.
  apply bind_ok in H as (a1 & Hst & H). inversion H; subst; clear H. simpl.
  set (s1 := if len (aize_mem_bound s) =? capacity (aize_mem_bound s) then _ else s) in *.
  assert (Hs1 : len (aize_mem_bound s1) = len (aize_mem_bound s) /\
                heap s1 = heap s /\ aize_mem_depth s1 = aize_mem_depth s).
  { subst s1. destruct (_ =? capacity _); [| done].
    destruct (_ =? 0).
    - unfold buf_malloc. destruct (START_SIZE <=? avail s); done.
    - destruct (buf_realloc _ _ s) as [a s0] eqn:ER.
      apply buf_realloc_heap in ER. simpl. tauto. }
  destruct Hs1 as (Hlen & Hheap & Hdepth). rewrite Hlen in *.
  unfold store_slot in Hst. destruct (arr (aize_mem_bound s1)) as [l|]; [| done].
  destruct (0 <=? len (aize_mem_bound s)) eqn:E1; [| done].
  destruct (len (aize_mem_bound s) <? Z.of_nat (length l)) eqn:E2; [| done].
  simpl in Hst. inversion Hst; subst; clear Hst.
  apply Z.leb_le in E1. apply Z.ltb_lt in E2.
  exists (<[Z.to_nat (len (aize_mem_bound s)) := Ptr mem]> l).
  rewrite length_insert. repeat split; try done.
  apply list_lookup_insert_eq. lia.
Qed.

Lemma add_mem_fresh_top mem s s' :
  fresh_top (aize_mem_bound s) ->
  aize_mem_add_mem mem s = Ok s' ->
  fresh_top (aize_mem_bound s').
Proof.
  intros [Hlen Hfresh] H.
  destruct (Z.eq_dec (len (aize_mem_bound s)) (capacity (aize_mem_bound s))) as [Hfull|Hne].
  - destruct (Z.eq_dec (len (aize_mem_bound s)) 0) as [Hz|Hnz].
    + (* the first append: a new buffer *)
      revert H. unfold aize_mem_add_mem.
      rewrite <- Hfull, Hz. simpl. unfold buf_malloc.
      destruct (START_SIZE <=? avail s); simpl; [| done].
      intros H; inversion H; subst; clear H. simpl.
      split; [by vm_compute |]. intros l [= <-]. split; [by vm_compute |].
      intros i Hi. destruct i as [|i]; [vm_compute in Hi; done |].
      change (unreadable (replicate 31 Indet !! i)).
      destruct (decide (i < 31)%nat); [right; left | left].
      * apply lookup_replicate. split; [done | lia].
      * apply lookup_ge_None. rewrite length_replicate. lia.
    + destruct (add_mem_full_fault mem s) as [HF|HF]; [done | lia | |];
        rewrite HF in H; done.
  - revert H. unfold aize_mem_add_mem.
    destruct (_ =? capacity _) eqn:E; [apply Z.eqb_eq in E; lia |].
    unfold store_slot. destruct (arr (aize_mem_bound s)) as [l|] eqn:Ha; [| done].
    destruct (0 <=? len (aize_mem_bound s)) eqn:E1; [| done].
    destruct (len (aize_mem_bound s) <? Z.of_nat (length l)) eqn:E2; [| done].
    simpl. intros H; inversion H; subst; clear H. simpl.
    apply Z.ltb_lt in E2. destruct (Hfresh l eq_refl) as [Hl Hun].
    rewrite size_t_small by lia.
    split; [cbn [len]; lia |]. cbn [len arr].
    intros l' [= <-]. rewrite length_insert. split; [done |].
    intros i Hi. rewrite list_lookup_insert_ne by lia. apply Hun. lia.
Qed.

(** The first append allocates the buffer and fills its first cell. *)
Lemma add_mem_first mem s :
  len (aize_mem_bound s) = 0 -> capacity (aize_mem_bound s) = 0 ->
  START_SIZE <= avail s ->
  aize_mem_add_mem mem s =
    Ok (set_bound (mkList START_SIZE 1 (Some (Ptr mem :: replicate 31 Indet)))
          (set_avail (avail s - START_SIZE) s)).
Proof.
  intros Hl Hc Ha. unfold aize_mem_add_mem, buf_malloc.
  rewrite Hl, Hc. cbn [Z.eqb].
  destruct (START_SIZE <=? avail s) eqn:E; [| apply Z.leb_gt in E; lia].
  reflexivity.
Qed.

(** An append below the capacity fills the cell at index [len]. *)
Lemma add_mem_room mem s l :
  len (aize_mem_bound s) <> capacity (aize_mem_bound s) ->
  arr (aize_mem_bound s) = Some l ->
  0 <= len (aize_mem_bound s) < Z.of_nat (length l) ->
  aize_mem_add_mem mem s =
    Ok (set_bound (mkList (capacity (aize_mem_bound s))
                     (size_t (len (aize_mem_bound s) + 1))
                     (Some (<[Z.to_nat (len (aize_mem_bound s)) := Ptr mem]> l))) s).
Proof.
  intros Hne Ha Hl. unfold aize_mem_add_mem.
  destruct (_ =? capacity _) eqn:E; [apply Z.eqb_eq in E; lia |].
  rewrite Ha. unfold store_slot.
  destruct (0 <=? _) eqn:E1; [| apply Z.leb_gt in E1; lia].
  destruct (_ <? Z.of_nat (length l)) eqn:E2; [| apply Z.ltb_ge in E2; lia].
  reflexivity.
Qed.

Lemma c_malloc_ok bytes s :
  bytes <= avail s ->
  c_malloc bytes s =
    (fresh_addr (heap s),
     set_avail (avail s - bytes)
       (set_heap (<[fresh_addr (heap s) := mkBlock bytes (mkBase None None)]> (heap s)) s)).
Proof.
  intros H. unfold c_malloc.
  destruct (bytes <=? avail s) eqn:E; [done | apply Z.leb_gt in E; lia].
Qed.

End Append.

Section Scan.

(** Whatever happens in an iteration, it starts by reading the buffer at
    the loop index. *)
Lemma collect_loop_head n cur a sc :
  exists t, fst (collect_loop (S n) cur a sc) = Z.of_nat n :: t.
Proof.
  cbn [collect_loop].
  destruct (load_slot a (Z.of_nat n)) as [obj|f]; [| by eexists].
  destruct (load_depth obj (scan_heap sc)) as [d|f]; [| by eexists].
  destruct (cur <=? d).
  - destruct (ref_count_nonzero obj (scan_heap sc));
      (destruct (incr_num sc) as [sc1|f]; [| by eexists]);
      destruct (collect_loop n cur a sc1); by eexists.
  - destruct (d =? 0); [| by eexists].
    destruct (incr_num _) as [sc2|f]; [| by eexists].
    destruct (collect_loop n cur a sc2). by eexists.
Qed.

Lemma collect_scan_head s :
  0 <= len (aize_mem_bound s) < 2 ^ 31 ->
  exists t, fst (collect_scan s) = len (aize_mem_bound s) :: t.
Proof.
  intros Hlen. unfold collect_scan. rewrite int_of_size_t_small by done.
  replace (Z.to_nat (len (aize_mem_bound s) + 1))
    with (S (Z.to_nat (len (aize_mem_bound s)))) by lia.
  destruct (collect_loop_head (Z.to_nat (len (aize_mem_bound s)))
              (aize_mem_depth s) (arr (aize_mem_bound s)) (mkScan 0 0 (heap s)))
    as [t Ht].
  exists t. rewrite Ht. f_equal. lia.
Qed.

(** A cell that holds no usable reference stops the scan with a fault. *)
Lemma unreadable_fault a i sc cur :
  0 <= i ->
  (forall l, a = Some l -> unreadable (l !! Z.to_nat i)) ->
  exists f, collect_loop (S (Z.to_nat i)) cur a sc = ([i], Fault f).
Proof.
  intros Hi Hun. cbn [collect_loop]. rewrite Z2Nat.id by done.
  unfold load_slot. destruct a as [l|]; [| by eexists].
  destruct (0 <=? i) eqn:E; [| apply Z.leb_gt in E; lia].
  destruct (Hun l eq_refl) as [-> | [-> | ->]]; by eexists.
Qed.

Lemma fresh_top_scan_fault s :
  fresh_top (aize_mem_bound s) ->
  exists f, collect_scan s = ([len (aize_mem_bound s)], Fault f).
Proof.
  intros [Hlen Hfresh]. unfold collect_scan.
  rewrite int_of_size_t_small by done.
  replace (Z.to_nat (len (aize_mem_bound s) + 1))
    with (S (Z.to_nat (len (aize_mem_bound s)))) by lia.
  apply unreadable_fault; [lia |].
  intros l Hl. apply (Hfresh l Hl). lia.
Qed.

Lemma fresh_top_collect_fault s :
  fresh_top (aize_mem_bound s) -> exists f, aize_mem_collect s = Fault f.
Proof.
  intros H. destruct (fresh_top_scan_fault s H) as [f Hf].
  exists f. unfold aize_mem_collect. by rewrite Hf.
Qed.

Lemma fresh_top_exit_fault s :
  fresh_top (aize_mem_bound s) ->
  exists f, collect_scan s = ([len (aize_mem_bound s)], Fault f) /\
    aize_mem_exit s = Fault f.
Proof.
  intros H. destruct (fresh_top_scan_fault s H) as [f Hf].
  exists f. split; [done |].
  unfold aize_mem_exit, aize_mem_collect. by rewrite Hf.
Qed.

Lemma c_malloc_bound bytes s :
  aize_mem_bound (snd (c_malloc bytes s)) = aize_mem_bound s.
Proof. unfold c_malloc. by destruct (bytes <=? avail s). Qed.

Lemma reachable_fresh_top s : reachable s -> fresh_top (aize_mem_bound s).
Proof.
  induction 1 as [budget | s _ IH | s bytes s' r _ IH Hm | s s' _ IH He
                  | s obj d _ IH | s obj r _ IH]; try exact IH.
  - split; [by vm_compute | intros l [=]].
  - unfold aize_mem_malloc in Hm.
    pose proof (c_malloc_bound bytes s) as Hb.
    destruct (c_malloc bytes s) as [mem s1]. simpl in Hb.
    apply bind_ok in Hm as (s2 & Hadd & [= <- <-]).
    apply (add_mem_fresh_top mem s1); [by rewrite Hb | done].
  - destruct (fresh_top_exit_fault s IH) as (f & _ & Hf). rewrite Hf in He. done.
Qed.

(** Scope exit never completes on a state the interface produced: the first
    read of its scan, at index [len], is already a fault. *)
Lemma reachable_exit_fault s :
  reachable s ->
  exists f, collect_scan s = ([len (aize_mem_bound s)], Fault f) /\
    aize_mem_exit s = Fault f.
Proof. intros H. by apply fresh_top_exit_fault, reachable_fresh_top. Qed.

Lemma reachable_after_malloc bytes s :
  reachable s -> reachable (after_malloc bytes s).
Proof.
  intros H. unfold after_malloc.
  destruct (aize_mem_malloc bytes s) as [[s' r]|f] eqn:E; [| done].
  by eapply reach_malloc.
Qed.

Lemma reachable_init_header obj d r s :
  reachable s -> reachable (init_header obj d r s).
Proof.
  intros H. unfold init_header.
  by apply (reach_store_ref_count (set_heap (store_depth obj d (heap s)) s)),
    reach_store_depth.
Qed.

(** [stale_top] is a state the interface produced, with a value in the
    indeterminate cell above the top. *)
Lemma stale_top_from_run :
  reachable scope_of_two /\
  ledger scope_of_two = [Ptr 1; Ptr 2; Ptr 3] /\
  (exists l, arr (aize_mem_bound scope_of_two) = Some l /\ l !! 3%nat = Some Indet) /\
  stale_top = fill_cell 3 3 scope_of_two.
Proof.
  split.
  { unfold scope_of_two.
    repeat first [ apply reachable_init_header | apply reachable_after_malloc
                 | apply reach_enter | apply reach_initial ]. }
  split; [by vm_compute |]. split; [eexists; split; by vm_compute |].
  by vm_compute.
Qed.

End Scan.

Section Truncate.

(** What a successful truncation does to the two globals; the objects are
    not touched. *)
Lemma pop_mem_ok num s s' :
  aize_mem_pop_mem num s = Ok s' ->
  heap s' = heap s /\ aize_mem_depth s' = aize_mem_depth s /\
  len (aize_mem_bound s') = size_t (len (aize_mem_bound s) - num) /\
  capacity (aize_mem_bound s') =
    (if (SCALE_FACTOR * START_SIZE <? capacity (aize_mem_bound s))
        && (size_t (size_t (len (aize_mem_bound s) - num) - num)
            <? capacity (aize_mem_bound s) / SHRINK_WHEN)
     then capacity (aize_mem_bound s) / SCALE_FACTOR
     else capacity (aize_mem_bound s)).
Proof.
  unfold aize_mem_pop_mem. intros H.
  apply bind_ok in H as (a1 & _ & H).
  destruct (_ && _).
  - destruct (buf_realloc a1 _ s) as [a2 s0] eqn:ER.
    apply buf_realloc_heap in ER. inversion H; subst; clear H. simpl. tauto.
  - inversion H; subst; clear H. done.
Qed.

(** A truncation that clears anything stays inside the buffer. *)
Lemma pop_mem_in_range num s s' :
  aize_mem_pop_mem num s = Ok s' ->
  size_t (num * sizeof_ptr) <> 0 ->
  exists l, arr (aize_mem_bound s) = Some l /\
    size_t (len (aize_mem_bound s) - num) + size_t (num * sizeof_ptr) / sizeof_ptr
    <= Z.of_nat (length l).
Proof.
  unfold aize_mem_pop_mem. intros H Hnz.
  apply bind_ok in H as (a1 & Hm & _). unfold memset_null in Hm.
  destruct (_ =? 0) eqn:E; [apply Z.eqb_eq in E; done |].
  destruct (arr (aize_mem_bound s)) as [l|]; [| done].
  destruct (0 <=? _); [| done]. simpl in Hm.
  destruct (_ <=? Z.of_nat (length l)) eqn:E2; [| done].
  apply Z.leb_le in E2. eauto.
Qed.

End Truncate.

Section Loop.

Context (cur : Z) (a : option (list slot)).

(** The three ways an iteration of the scan can go on without a fault:
    the entry is counted, the entry is the returned object, or the scan
    stops. *)
Lemma collect_loop_S n sc t sc' :
  collect_loop (S n) cur a sc = (t, Ok sc') ->
  exists obj d,
    load_slot a (Z.of_nat n) = Ok obj /\
    load_depth obj (scan_heap sc) = Ok d /\
    ((cur <= d /\ num_to_pop sc <> INT_MAX /\
      exists t', t = Z.of_nat n :: t' /\
        collect_loop n cur a
          (mkScan (num_to_pop sc + 1) (ret_obj sc) (scan_heap sc)) = (t', Ok sc'))
     \/ (d = 0 /\ 0 < cur /\ num_to_pop sc <> INT_MAX /\
      exists t', t = Z.of_nat n :: t' /\
        collect_loop n cur a
          (mkScan (num_to_pop sc + 1) obj
             (store_depth obj (uint32_t (cur - 1)) (scan_heap sc))) = (t', Ok sc'))
     \/ (d < cur /\ d <> 0 /\ t = [Z.of_nat n] /\ sc' = sc)).
Proof.
  cbn [collect_loop]. intros H.
  destruct (load_slot a (Z.of_nat n)) as [obj|f] eqn:Hls; [| by inversion H].
  destruct (load_depth obj (scan_heap sc)) as [d|f] eqn:Hld; [| by inversion H].
  exists obj, d. do 2 (split; [done |]).
  destruct (cur <=? d) eqn:E1.
  - apply Z.leb_le in E1. left.
    assert (Hsame : (if ref_count_nonzero obj (scan_heap sc) then sc else sc) = sc)
      by (by destruct (ref_count_nonzero obj (scan_heap sc))).
    rewrite Hsame in H. clear Hsame. unfold incr_num in H.
    destruct (num_to_pop sc =? INT_MAX) eqn:E2; [by inversion H |].
    apply Z.eqb_neq in E2.
    destruct (collect_loop n cur a _) as [t' r] eqn:EL.
    inversion H; subst. eauto 10.
  - apply Z.leb_gt in E1. right.
    destruct (d =? 0) eqn:E3.
    + apply Z.eqb_eq in E3. left. unfold incr_num in H. cbn [num_to_pop] in H.
      destruct (num_to_pop sc =? INT_MAX) eqn:E2; [by inversion H |].
      apply Z.eqb_neq in E2. cbn [ret_obj scan_heap] in H.
      destruct (collect_loop n cur a _) as [t' r] eqn:EL.
      inversion H; subst. split; [done |]. split; [lia |]. eauto 10.
    + apply Z.eqb_neq in E3. right. inversion H; subst. done.
Qed.

Lemma load_depth_ok obj h d :
  load_depth obj h = Ok d ->
  obj <> 0 /\ exists b, h !! obj = Some b /\ depth (blk_hdr b) = Some d.
Proof.
  unfold load_depth, load_hdr.
  destruct (obj =? 0) eqn:E; [done |]. apply Z.eqb_neq in E.
  destruct (h !! obj) as [b|]; [| done]. simpl.
  destruct (depth (blk_hdr b)) as [d'|] eqn:Ed; [| done].
  intros [= <-]. eauto.
Qed.

Lemma dom_store_depth obj d (h : gmap Z Block) :
  dom (store_depth obj d h) = dom h.
Proof. unfold store_depth. apply dom_alter_L. Qed.

(** The scan allocates nothing and releases nothing. *)
Lemma collect_loop_dom n sc t sc' :
  collect_loop n cur a sc = (t, Ok sc') ->
  dom (scan_heap sc') = dom (scan_heap sc).
Proof.
  revert sc t. induction n as [|n IH]; intros sc t H.
  - by inversion H.
  - apply collect_loop_S in H
      as (obj & d & _ & _ & [(_ & _ & t' & _ & H) | [(_ & _ & _ & t' & _ & H) | (_ & _ & _ & ->)]]).
    + by apply IH in H.
    + apply IH in H. cbn [scan_heap] in H. by rewrite H, dom_store_depth.
    + done.
Qed.

(** An object whose depth is at least the current depth goes through the
    scan untouched, and the scan does not pick it as the returned object. *)
Lemma collect_loop_keep n sc t sc' p b d :
  collect_loop n cur a sc = (t, Ok sc') ->
  scan_heap sc !! p = Some b -> depth (blk_hdr b) = Some d -> cur <= d ->
  scan_heap sc' !! p = Some b /\ (ret_obj sc' = p -> ret_obj sc = p).
Proof.
  intros H Hp Hd Hcur. revert sc t H Hp.
  induction n as [|n IH]; intros sc t H Hp.
  - by inversion H; subst.
  - apply collect_loop_S in H
      as (obj & d0 & _ & Hld & [(_ & _ & t' & _ & H) | [(-> & Hpos & _ & t' & _ & H) | (_ & _ & _ & ->)]]).
    + by apply IH in H.
    + apply load_depth_ok in Hld as (_ & b0 & Hb0 & Hd0).
      assert (obj <> p).
      { intros ->. rewrite Hp in Hb0. injection Hb0 as <-.
        rewrite Hd in Hd0. injection Hd0 as ->. lia. }
      apply IH in H as [H1 H2].
      * split; [done |]. intros Hr. apply H2 in Hr. done.
      * cbn [scan_heap]. unfold store_depth. by rewrite lookup_alter_ne.
    + done.
Qed.

(** Where the scan has been: with [k] entries counted, it visited the [k]
    indices below [n], and possibly the index under them, where it stopped
    at an entry of a shallower depth. *)
Lemma collect_loop_count n sc t sc' :
  collect_loop n cur a sc = (t, Ok sc') ->
  0 <= num_to_pop sc' - num_to_pop sc <= Z.of_nat n /\
  forall i, i ∈ t ->
    Z.of_nat n - (num_to_pop sc' - num_to_pop sc) <= i < Z.of_nat n \/
    exists obj d, load_slot a i = Ok obj /\
      load_depth obj (scan_heap sc') = Ok d /\ d < cur.
Proof.
  revert sc t. induction n as [|n IH]; intros sc t H.
  - inversion H; subst. split; [lia |]. intros i Hi. by apply elem_of_nil in Hi.
  - apply collect_loop_S in H
      as (obj & d & Hls & Hld & [(_ & _ & t' & -> & H) | [(_ & _ & _ & t' & -> & H) | (Hlt & _ & -> & ->)]]).
    + apply IH in H as [Hk Ht]. cbn [num_to_pop] in *. split; [lia |].
      intros i [-> | Hi]%elem_of_cons; [left; lia |].
      destruct (Ht i Hi) as [? | ?]; [left; lia | by right].
    + apply IH in H as [Hk Ht]. cbn [num_to_pop] in *. split; [lia |].
      intros i [-> | Hi]%elem_of_cons; [left; lia |].
      destruct (Ht i Hi) as [? | ?]; [left; lia | by right].
    + split; [lia |]. intros i ->%list_elem_of_singleton. right. eauto.
Qed.

End Loop.

(** ** The reference count plays no part *)

Section RefCount.

Lemma load_depth_store_ref_count obj p v h :
  load_depth obj (store_ref_count p v h) = load_depth obj h.
Proof.
  unfold load_depth, load_hdr, store_ref_count.
  destruct (obj =? 0); [done |].
  rewrite lookup_alter. case_decide; [subst |]; [| done].
  by destruct (h !! obj).
Qed.

Lemma store_depth_ref_count_comm obj d p v h :
  store_depth obj d (store_ref_count p v h) =
  store_ref_count p v (store_depth obj d h).
Proof.
  apply map_eq. intros k. unfold store_depth, store_ref_count.
  rewrite !lookup_alter.
  repeat case_decide; subst; rewrite ?lookup_alter_eq, ?lookup_alter_ne by done;
    try done.
  by destruct (h !! k).
Qed.

Lemma collect_loop_ref_count n cur a p v sc :
  collect_loop n cur a (scan_with_ref_count p v sc) =
  (fst (collect_loop n cur a sc),
   rmap (scan_with_ref_count p v) (snd (collect_loop n cur a sc))).
Proof.
  revert sc. induction n as [|n IH]; intros [m r h]; [done |].
  cbn [collect_loop]. destruct (load_slot a (Z.of_nat n)) as [obj|f]; [| done].
  change (scan_with_ref_count p v (mkScan m r h))
    with (mkScan m r (store_ref_count p v h)).
  cbn [num_to_pop ret_obj scan_heap]. rewrite load_depth_store_ref_count.
  destruct (load_depth obj h) as [d|f]; [| done].
  destruct (cur <=? d).
  - destruct (ref_count_nonzero obj (store_ref_count p v h)),
      (ref_count_nonzero obj h);
      unfold incr_num; cbn [num_to_pop ret_obj scan_heap];
      (destruct (m =? INT_MAX); [done |]);
      change (mkScan (m + 1) r (store_ref_count p v h))
        with (scan_with_ref_count p v (mkScan (m + 1) r h));
      rewrite IH; by destruct (collect_loop n cur a _).
  - destruct (d =? 0); [| done].
    unfold incr_num. cbn [num_to_pop ret_obj scan_heap].
    destruct (m =? INT_MAX); [done |].
    rewrite store_depth_ref_count_comm.
    change (mkScan (m + 1) obj
              (store_ref_count p v (store_depth obj (uint32_t (cur - 1)) h)))
      with (scan_with_ref_count p v
              (mkScan (m + 1) obj (store_depth obj (uint32_t (cur - 1)) h))).
    rewrite IH. by destruct (collect_loop n cur a _).
Qed.

Lemma buf_realloc_set_heap old bytes h s :
  buf_realloc old bytes (set_heap h s) =
  (fst (buf_realloc old bytes s), set_heap h (snd (buf_realloc old bytes s))).
Proof.
  unfold buf_realloc, buf_malloc. cbn [set_heap avail].
  destruct old as [l|]; [destruct (bytes <=? avail s + _) | destruct (bytes <=? avail s)];
    done.
Qed.

Lemma add_mem_set_heap mem h s :
  aize_mem_add_mem mem (set_heap h s) = rmap (set_heap h) (aize_mem_add_mem mem s).
Proof.
  unfold aize_mem_add_mem. cbn [set_heap aize_mem_bound].
  destruct (len (aize_mem_bound s) =? capacity (aize_mem_bound s)).
  - destruct (len (aize_mem_bound s) =? 0).
    + pose proof (buf_realloc_set_heap None START_SIZE h s) as E.
      cbn [buf_realloc] in E. rewrite E.
      destruct (buf_malloc START_SIZE s) as [a s0]. cbn.
      by destruct (store_slot a _ _).
    + rewrite buf_realloc_set_heap.
      destruct (buf_realloc _ _ s) as [a s0]. cbn.
      by destruct (store_slot a _ _).
  - cbn. by destruct (store_slot _ _ _).
Qed.

Lemma pop_mem_set_heap num h s :
  aize_mem_pop_mem num (set_heap h s) = rmap (set_heap h) (aize_mem_pop_mem num s).
Proof.
  unfold aize_mem_pop_mem. cbn [set_heap aize_mem_bound].
  destruct (memset_null _ _ _) as [a1|f]; [| done]. cbn [bind].
  destruct (_ && _); [| done].
  rewrite buf_realloc_set_heap. by destruct (buf_realloc a1 _ s).
Qed.

(** Scope collection on a state in which one reference count was replaced:
    the same run, with the same replacement in its outcome. *)
Lemma collect_with_ref_count p v s :
  aize_mem_collect (with_ref_count p v s) =
  rmap (with_ref_count p v) (aize_mem_collect s).
Proof.
  unfold aize_mem_collect, with_ref_count, collect_scan.
  cbn [set_heap aize_mem_bound aize_mem_depth heap].
  pose proof (collect_loop_ref_count
    (Z.to_nat (int_of_size_t (len (aize_mem_bound s)) + 1))
    (aize_mem_depth s) (arr (aize_mem_bound s)) p v (mkScan 0 0 (heap s))) as E.
  unfold scan_with_ref_count in E at 1. cbn [num_to_pop ret_obj scan_heap] in E.
  rewrite E. cbn [snd].
  destruct (snd (collect_loop _ _ _ _)) as [sc|f]; [| done].
  cbn [rmap bind scan_with_ref_count num_to_pop ret_obj scan_heap].
  change (mkState (aize_mem_bound s) (aize_mem_depth s)
            (store_ref_count p v (heap s)) (avail s))
    with (set_heap (store_ref_count p v (heap s)) s).
  rewrite !pop_mem_set_heap.
  destruct (aize_mem_pop_mem _ s) as [s1|f]; [| done].
  cbn [rmap bind].
  destruct (ret_obj sc =? 0); [done |].
  rewrite !add_mem_set_heap.
  by destruct (aize_mem_add_mem (ret_obj sc) s1).
Qed.

End RefCount.

(** * The claims *)

Section Scenarios.

(** C1, as stated, fails.  The scenario [enter(); allocate(); allocate();
    exit()] from depth 1 and an empty ledger, as the code runs it: the two
    allocations register O1 and O2 at depth counter 2 but store nothing into
    their headers (neither [depth] nor [ref_count] holds a value), and the
    exit does not complete: its scan starts by reading the cell at index 2,
    above the two entries, which was never written.  This is so even when
    the caller fills in both headers with depth 2 and reference count 0
    first. *)
Lemma scenario_two_allocations :
  exists s2 s3,
    aize_mem_malloc 16 (aize_mem_enter (initial 4096)) = Ok (s2, None) /\
    aize_mem_malloc 16 s2 = Ok (s3, None) /\
    aize_mem_depth s3 = 2 /\
    ledger s3 = [Ptr 1; Ptr 2] /\
    blk_hdr <$> heap s3 !! 1 = Some (mkBase None None) /\
    blk_hdr <$> heap s3 !! 2 = Some (mkBase None None) /\
    collect_scan s3 = ([2], Fault IndeterminateRead) /\
    aize_mem_exit s3 = Fault IndeterminateRead /\
    aize_mem_exit (init_header 2 2 0 (init_header 1 2 0 s3))
      = Fault IndeterminateRead.
Proof.
  destruct (aize_mem_malloc 16 (aize_mem_enter (initial 4096)))
    as [[s2 r2]|f] eqn:E2; [| by vm_compute in E2].
  destruct (aize_mem_malloc 16 s2) as [[s3 r3]|f] eqn:E3;
    vm_compute in E2; injection E2 as <- <-; [| by vm_compute in E3].
  vm_compute in E3. injection E3 as <- <-.
  eexists _, _. split; [reflexivity |]. split; [by vm_compute |].
  repeat split; by vm_compute.
Qed.

(** C1, amended.  From depth 1 and an empty ledger, with enough storage
    for the ledger's first buffer and the two objects, [enter(); allocate();
    allocate()] brings the depth counter to 2 and the ledger to the two new
    objects in allocation order; the allocations leave both header fields of
    both objects without a value. *)
Theorem two_allocations_in_scope budget b1 b2 :
  0 <= b1 -> 0 <= b2 -> START_SIZE + b1 + b2 <= budget ->
  exists s2 s3,
    aize_mem_malloc b1 (aize_mem_enter (initial budget)) = Ok (s2, None) /\
    aize_mem_malloc b2 s2 = Ok (s3, None) /\
    aize_mem_depth s3 = 2 /\
    ledger s3 = [Ptr 1; Ptr 2] /\
    heap s3 !! 1 = Some (mkBlock b1 (mkBase None None)) /\
    heap s3 !! 2 = Some (mkBlock b2 (mkBase None None)).
Proof.
  unfold START_SIZE. intros H1 H2 Hb.
  exists
    (mkState (mkList 256 1 (Some (Ptr 1 :: replicate 31 Indet))) 2
       (<[1 := mkBlock b1 (mkBase None None)]> ∅) (budget - b1 - 256)),
    (mkState (mkList 256 2 (Some (Ptr 1 :: Ptr 2 :: replicate 30 Indet))) 2
       (<[2 := mkBlock b2 (mkBase None None)]>
          (<[1 := mkBlock b1 (mkBase None None)]> ∅))
       (budget - b1 - 256 - b2)).
  split.
  { unfold aize_mem_malloc. rewrite c_malloc_ok by (cbn; lia).
    rewrite add_mem_first; [reflexivity | reflexivity | reflexivity |].
    unfold START_SIZE. cbn. lia. }
  split.
  { unfold aize_mem_malloc. rewrite c_malloc_ok by (cbn; lia).
    rewrite (add_mem_room _ _ (Ptr 1 :: replicate 31 Indet));
      [reflexivity | by cbn | reflexivity | by cbn]. }
  repeat split; reflexivity.
Qed.

Lemma two_allocations_in_scope_witness :
  exists s2 s3,
    aize_mem_malloc 16 (aize_mem_enter (initial 4096)) = Ok (s2, None) /\
    aize_mem_malloc 16 s2 = Ok (s3, None) /\
    aize_mem_depth s3 = 2 /\
    ledger s3 = [Ptr 1; Ptr 2] /\
    heap s3 !! 1 = Some (mkBlock 16 (mkBase None None)) /\
    heap s3 !! 2 = Some (mkBlock 16 (mkBase None None)).
Proof. apply (two_allocations_in_scope 4096 16 16); by vm_compute. Defined.

(** C2. An object allocated on a state the interface produced and then
    marked for return is not promoted by the next exit: the scan of collect
    reads the cell at index [len], above every entry, faults there, and the
    exit does not complete, so the object is neither re-tagged nor
    re-appended. *)
Theorem marked_object_exit_faults s bytes s' r X :
  reachable s ->
  aize_mem_malloc bytes s = Ok (s', r) ->
  exists f,
    collect_scan (mark_for_return X s') = ([len (aize_mem_bound s')], Fault f) /\
    aize_mem_exit (mark_for_return X s') = Fault f.
Proof.
  intros Hs Hm.
  assert (Hr : reachable (mark_for_return X s')).
  { unfold mark_for_return. apply reach_store_depth. by eapply reach_malloc. }
  exact (reachable_exit_fault _ Hr).
Qed.

Lemma marked_object_exit_faults_witness :
  exists s',
    aize_mem_malloc 16 (aize_mem_enter (initial 4096)) = Ok (s', None) /\
    ledger (mark_for_return 1 s') = [Ptr 1] /\
    depth <$> (blk_hdr <$> heap (mark_for_return 1 s') !! 1) = Some (Some 0) /\
    collect_scan (mark_for_return 1 s') = ([1], Fault IndeterminateRead) /\
    aize_mem_exit (mark_for_return 1 s') = Fault IndeterminateRead.
Proof.
  destruct (aize_mem_malloc 16 (aize_mem_enter (initial 4096)))
    as [[s' r]|f0] eqn:E; [| by vm_compute in E].
  destruct (marked_object_exit_faults (aize_mem_enter (initial 4096)) 16 s' r 1)
    as (f & Hscan & Hexit).
  - apply reach_enter, reach_initial.
  - exact E.
  - vm_compute in E. injection E as Hs' Hr. subst r.
    exists s'. split; [reflexivity |]. subst s'.
    assert (Hf : f = IndeterminateRead).
    { vm_compute in Hscan. by injection Hscan as <-. }
    rewrite Hf in Hscan, Hexit.
    split; [reflexivity |]. split; [reflexivity |].
    split; [exact Hscan | exact Hexit].
Defined.

(** C3. On every state the interface produced, [enter()] immediately
    followed by [exit()] does not give the state back: the scan of collect
    reads the cell at index [len], faults there, and the exit does not
    complete. *)
Theorem enter_exit_faults s :
  reachable s ->
  exists f,
    collect_scan (aize_mem_enter s) = ([len (aize_mem_bound s)], Fault f) /\
    aize_mem_exit (aize_mem_enter s) = Fault f.
Proof.
  intros H. exact (reachable_exit_fault _ (reach_enter _ H)).
Qed.

Lemma enter_exit_faults_witness :
  exists f,
    collect_scan (aize_mem_enter (initial 0)) = ([0], Fault f) /\
    aize_mem_exit (aize_mem_enter (initial 0)) = Fault f.
Proof. apply (enter_exit_faults (initial 0)). apply reach_initial. Defined.

(** C4. For every ledger of fewer than 2^31 entries the scan of collect
    starts with a read at index [len], one above the last valid index
    [len - 1] and outside the range from 0 to [len - 1]. *)
Theorem collect_scan_starts_above_top s :
  0 <= len (aize_mem_bound s) < 2 ^ 31 ->
  exists i t, fst (collect_scan s) = i :: t /\
    i = len (aize_mem_bound s) /\ ~ (0 <= i < len (aize_mem_bound s)).
Proof.
  intros H. destruct (collect_scan_head s H) as [t Ht].
  exists (len (aize_mem_bound s)), t. repeat split; [done | lia].
Qed.

Lemma collect_scan_starts_above_top_witness :
  exists i t, fst (collect_scan stale_top) = i :: t /\
    i = 3 /\ ~ (0 <= i < 3).
Proof. apply (collect_scan_starts_above_top stale_top). by vm_compute. Defined.

(** C5. Whenever [aize_mem_malloc] completes, its caller receives no value,
    although the reference of the new object has been written to the cell
    at the old top of the ledger. *)
Theorem malloc_returns_no_reference bytes s s' r :
  aize_mem_malloc bytes s = Ok (s', r) ->
  r = None /\
  exists l, arr (aize_mem_bound s') = Some l /\
    l !! Z.to_nat (len (aize_mem_bound s)) = Some (Ptr (fst (c_malloc bytes s))).
Proof.
  unfold aize_mem_malloc. intros H.
  pose proof (c_malloc_bound bytes s) as Hb.
  destruct (c_malloc bytes s) as [mem s1]. cbn [fst snd] in *.
  apply bind_ok in H as (s2 & Hadd & [= <- <-]). split; [done |].
  apply add_mem_ok in Hadd as (l & Hl & _ & Hget & _).
  exists l. by rewrite <- Hb.
Qed.

Lemma malloc_returns_no_reference_witness :
  exists s', aize_mem_malloc 16 (initial 4096) = Ok (s', None) /\
    ledger s' = [Ptr 1].
Proof.
  destruct (aize_mem_malloc 16 (initial 4096)) as [[s' r]|f] eqn:E;
    [| by vm_compute in E].
  destruct (malloc_returns_no_reference 16 (initial 4096) s' r E) as [-> _].
  exists s'. split; [reflexivity |].
  vm_compute in E. injection E as <-. reflexivity.
Defined.

End Scenarios.

Section Storage.

(** Scope collection leaves the set of allocated objects as it found it. *)
Lemma collect_dom s s' :
  aize_mem_collect s = Ok s' -> dom (heap s') = dom (heap s).
Proof.
  unfold aize_mem_collect. intros H.
  apply bind_ok in H as (sc & Hsc & H).
  apply bind_ok in H as (s1 & Hpop & H).
  unfold collect_scan in Hsc.
  destruct (collect_loop _ _ _ _) as [t r] eqn:EL. cbn [snd] in Hsc. subst r.
  apply collect_loop_dom in EL. cbn [scan_heap] in EL.
  apply pop_mem_ok in Hpop as (Hh1 & _). cbn [set_heap heap] in Hh1.
  destruct (ret_obj sc =? 0).
  - injection H as <-. by rewrite Hh1.
  - apply add_mem_ok in H as (l & _ & _ & _ & _ & Hh2 & _).
    by rewrite Hh2, Hh1.
Qed.

(** C6, as stated, fails: collecting [stale_top] evicts object 2, whose
    reference count is 0, from the ledger, and its storage is not released. *)
Lemma evicted_object_not_released :
  exists s' b,
    aize_mem_collect stale_top = Ok s' /\
    (Ptr 2 ∈ ledger stale_top) /\ (Ptr 2 ∉ ledger s') /\
    heap stale_top !! 2 = Some b /\ ref_count (blk_hdr b) = Some 0 /\
    ~ released 2 stale_top s'.
Proof.
  destruct (aize_mem_collect stale_top) as [s'|f] eqn:E; [| by vm_compute in E].
  exists s', (mkBlock 16 (mkBase (Some 2) (Some 0))).
  split; [done |]. pose proof (collect_dom _ _ E) as Hdom.
  vm_compute in E. injection E as <-.
  split; [| split; [| split; [| split]]].
  - apply list_elem_of_lookup. by exists 1%nat.
  - cbn. by apply not_elem_of_nil.
  - by vm_compute.
  - done.
  - intros [Hin Hout]. apply Hout. rewrite Hdom. exact Hin.
Qed.

(** The scan keeps every object and its size. *)
Lemma collect_loop_bytes n cur a sc t sc' p b :
  collect_loop n cur a sc = (t, Ok sc') ->
  scan_heap sc !! p = Some b ->
  exists b', scan_heap sc' !! p = Some b' /\ blk_bytes b' = blk_bytes b.
Proof.
  revert sc t b. induction n as [|n IH]; intros sc t b H Hb.
  - inversion H; subst. by exists b.
  - apply collect_loop_S in H
      as (obj & d & _ & _ & [(_ & _ & t' & _ & H) | [(_ & _ & _ & t' & _ & H) | (_ & _ & _ & ->)]]).
    + by apply (IH _ _ b) in H.
    + destruct (decide (obj = p)) as [->|Hne].
      * apply (IH _ _ (mkBlock (blk_bytes b)
                         (mkBase (Some (uint32_t (cur - 1))) (ref_count (blk_hdr b)))))
          in H; [done |].
        cbn [scan_heap]. unfold store_depth. by rewrite lookup_alter_eq, Hb.
      * apply (IH _ _ b) in H; [done |].
        cbn [scan_heap]. unfold store_depth. by rewrite lookup_alter_ne.
    + by exists b.
Qed.

Lemma collect_bytes s s' p b :
  aize_mem_collect s = Ok s' ->
  heap s !! p = Some b ->
  exists b', heap s' !! p = Some b' /\ blk_bytes b' = blk_bytes b.
Proof.
  unfold aize_mem_collect. intros H Hb.
  apply bind_ok in H as (sc & Hsc & H).
  apply bind_ok in H as (s1 & Hpop & H).
  unfold collect_scan in Hsc.
  destruct (collect_loop _ _ _ _) as [t r] eqn:EL. cbn [snd] in Hsc. subst r.
  apply (collect_loop_bytes _ _ _ _ _ _ p b) in EL; [| done].
  apply pop_mem_ok in Hpop as (Hh1 & _). cbn [set_heap heap] in Hh1.
  destruct (ret_obj sc =? 0).
  - injection H as <-. by rewrite Hh1.
  - apply add_mem_ok in H as (l & _ & _ & _ & _ & Hh2 & _).
    by rewrite Hh2, Hh1.
Qed.

(** C6, amended. Scope collection never releases the storage of an object.
    When it completes, the objects allocated are exactly those allocated
    before, each with a block of the same size; no object has been released;
    in particular an object whose entry was evicted from the ledger, with a
    reference count of 0 or not, is still allocated, and so is every object
    the ledger still records. *)
Theorem collect_releases_nothing s s' :
  aize_mem_collect s = Ok s' ->
  dom (heap s') = dom (heap s) /\
  (forall p b, heap s !! p = Some b ->
     exists b', heap s' !! p = Some b' /\ blk_bytes b' = blk_bytes b) /\
  (forall p, ~ released p s s') /\
  (forall p, Ptr p ∈ ledger s -> Ptr p ∉ ledger s' ->
     p ∈ dom (heap s) -> p ∈ dom (heap s')) /\
  (forall p, Ptr p ∈ ledger s' -> p ∈ dom (heap s) -> p ∈ dom (heap s')).
Proof.
  intros H. pose proof (collect_dom _ _ H) as Hdom.
  split; [done |]. split; [intros p b; by apply collect_bytes |].
  split; [intros p [Hin Hout]; apply Hout; by rewrite Hdom |].
  split; [intros p _ _ Hin | intros p _ Hin]; by rewrite Hdom.
Qed.

Lemma collect_releases_nothing_witness :
  exists s', aize_mem_collect stale_top = Ok s' /\
    ledger stale_top = [Ptr 1; Ptr 2; Ptr 3] /\ ledger s' = [] /\
    dom (heap s') = dom (heap stale_top) /\
    2 ∈ dom (heap s') /\ ~ released 2 stale_top s'.
Proof.
  destruct (aize_mem_collect stale_top) as [s'|f] eqn:E; [| by vm_compute in E].
  destruct (collect_releases_nothing stale_top s' E) as (Hdom & _ & Hn & Hev & _).
  exists s'. split; [reflexivity |]. split; [by vm_compute |].
  assert (Hl : ledger s' = []) by (vm_compute in E; by injection E as <-).
  split; [exact Hl |]. split; [exact Hdom |]. split; [| exact (Hn 2)].
  apply (Hev 2).
  - apply list_elem_of_lookup. by exists 1%nat.
  - rewrite Hl. by apply not_elem_of_nil.
  - apply elem_of_dom. by eexists.
Defined.

(** C7, as stated, fails: with 300 bytes left a request for 1000 bytes
    fails, and the allocation still lengthens the empty ledger by one entry,
    the null reference. *)
Lemma failed_request_is_registered :
  exists s',
    fst (c_malloc 1000 (initial 300)) = 0 /\
    aize_mem_malloc 1000 (initial 300) = Ok (s', None) /\
    ledger (initial 300) = [] /\ ledger s' = [Ptr 0] /\
    len (aize_mem_bound s') = 1.
Proof.
  destruct (aize_mem_malloc 1000 (initial 300)) as [[s' r]|f] eqn:E;
    [| by vm_compute in E].
  vm_compute in E. injection E as <- <-.
  eexists. repeat split; by vm_compute.
Qed.

(** C7, amended. When the request for raw storage fails, the allocation
    appends the null reference: it behaves as [aize_mem_add_mem] on the null
    pointer, and if that append completes, the length of the ledger has
    grown by one and the new top entry is null. *)
Theorem failed_request_appends_null bytes s :
  avail s < bytes ->
  aize_mem_malloc bytes s =
    rmap (fun s' => (s', None)) (aize_mem_add_mem 0 s) /\
  forall s' r, aize_mem_malloc bytes s = Ok (s', r) ->
    len (aize_mem_bound s') = size_t (len (aize_mem_bound s) + 1) /\
    exists l, arr (aize_mem_bound s') = Some l /\
      l !! Z.to_nat (len (aize_mem_bound s)) = Some (Ptr 0).
Proof.
  intros Hfail.
  assert (E : aize_mem_malloc bytes s =
              rmap (fun s' => (s', None)) (aize_mem_add_mem 0 s)).
  { unfold aize_mem_malloc, c_malloc.
    destruct (bytes <=? avail s) eqn:E; [apply Z.leb_le in E; lia |].
    by destruct (aize_mem_add_mem 0 s). }
  split; [done |]. intros s' r. rewrite E.
  destruct (aize_mem_add_mem 0 s) as [s1|f] eqn:EA; [| done].
  intros [= <- <-].
  apply add_mem_ok in EA as (l & Hl & _ & Hget & Hlen & _). eauto.
Qed.

Lemma failed_request_appends_null_witness :
  aize_mem_malloc 1000 (initial 300) =
    rmap (fun s' => (s', None)) (aize_mem_add_mem 0 (initial 300)).
Proof.
  apply (failed_request_appends_null 1000 (initial 300)). by vm_compute.
Defined.

(** C8. Appending to a full, non-empty ledger never completes: the buffer
    is resized to [capacity * 2] bytes, too few for [capacity] cells of 8
    bytes, and the store at index [len] falls outside it (or goes through a
    null pointer when the resize failed). *)
Theorem append_to_full_ledger_faults mem s :
  len (aize_mem_bound s) = capacity (aize_mem_bound s) ->
  0 < len (aize_mem_bound s) ->
  aize_mem_add_mem mem s = Fault NullDeref \/
  aize_mem_add_mem mem s = Fault (OutOfBounds (len (aize_mem_bound s))).
Proof. apply add_mem_full_fault. Qed.

Lemma append_to_full_ledger_faults_witness :
  aize_mem_add_mem 5 (roomy 256 256) = Fault NullDeref \/
  aize_mem_add_mem 5 (roomy 256 256) = Fault (OutOfBounds 256).
Proof.
  apply (append_to_full_ledger_faults 5 (roomy 256 256)); by vm_compute.
Defined.

(** The same defect without a full ledger: 32 appends to the empty ledger
    fill the 256 bytes of its first buffer, and the 33rd stores outside. *)
Lemma append_33rd_out_of_bounds :
  exists s, add_many 32 (initial 4096) = Ok s /\
    capacity (aize_mem_bound s) = 256 /\ len (aize_mem_bound s) = 32 /\
    aize_mem_add_mem 0 s = Fault (OutOfBounds 32).
Proof.
  destruct (add_many 32 (initial 4096)) as [s|f] eqn:E; [| by vm_compute in E].
  vm_compute in E. injection E as <-.
  eexists. repeat split; by vm_compute.
Qed.

(** C9. A truncation that completes reduces the length by [num], and it
    halves the capacity exactly when the capacity exceeds 512 and the new
    length minus [num] once more, wrapped to 64 bits, is under a quarter of
    the capacity: the test is not on the new length itself. *)
Theorem pop_mem_shrink_test num s s' :
  aize_mem_pop_mem num s = Ok s' ->
  len (aize_mem_bound s') = size_t (len (aize_mem_bound s) - num) /\
  capacity (aize_mem_bound s') =
    (if (SCALE_FACTOR * START_SIZE <? capacity (aize_mem_bound s))
        && (size_t (len (aize_mem_bound s') - num)
            <? capacity (aize_mem_bound s) / SHRINK_WHEN)
     then capacity (aize_mem_bound s) / SCALE_FACTOR
     else capacity (aize_mem_bound s)).
Proof.
  intros H. apply pop_mem_ok in H as (_ & _ & Hlen & Hcap).
  split; [done |]. by rewrite Hlen.
Qed.

(** Truncating all 1000 entries of a ledger of capacity 1024 leaves the
    capacity at 1024 although the new length 0 is under 256; truncating 100
    of 400 entries halves it although the new length 300 is not. *)
Lemma pop_mem_shrink_test_witness :
  (exists s', aize_mem_pop_mem 1000 (roomy 1024 1000) = Ok s' /\
     len (aize_mem_bound s') = 0 /\ capacity (aize_mem_bound s') = 1024) /\
  (exists s', aize_mem_pop_mem 100 (roomy 1024 400) = Ok s' /\
     len (aize_mem_bound s') = 300 /\ capacity (aize_mem_bound s') = 512).
Proof.
  split.
  - destruct (aize_mem_pop_mem 1000 (roomy 1024 1000)) as [s'|f] eqn:E;
      [| by vm_compute in E].
    destruct (pop_mem_shrink_test 1000 (roomy 1024 1000) s' E) as [Hl Hc].
    exists s'. split; [reflexivity |]. split; [exact Hl |].
    rewrite Hc, Hl. reflexivity.
  - destruct (aize_mem_pop_mem 100 (roomy 1024 400)) as [s'|f] eqn:E;
      [| by vm_compute in E].
    destruct (pop_mem_shrink_test 100 (roomy 1024 400) s' E) as [Hl Hc].
    exists s'. split; [reflexivity |]. split; [exact Hl |].
    rewrite Hc, Hl. reflexivity.
Defined.

End Storage.

Section Floating.

(** C10. On every state the interface produced, an entry of the ledger
    whose object has a depth of at least the current depth and a non-zero
    reference count is neither counted for removal nor truncated by
    collect: the scan reads the cell at index [len], above every entry,
    faults there with nothing counted, and never reads the entry. *)
Theorem floating_entry_not_reached s i p b d r :
  reachable s ->
  0 <= i < len (aize_mem_bound s) ->
  cell s i = Some (Ptr p) ->
  heap s !! p = Some b ->
  depth (blk_hdr b) = Some d -> ref_count (blk_hdr b) = Some r ->
  aize_mem_depth s <= d -> r <> 0 ->
  exists f,
    collect_scan s = ([len (aize_mem_bound s)], Fault f) /\
    aize_mem_collect s = Fault f /\
    i ∉ fst (collect_scan s).
Proof.
  intros Hr Hi _ _ _ _ _ _.
  destruct (reachable_exit_fault s Hr) as (f & Hscan & _).
  exists f. split; [done |].
  split; [unfold aize_mem_collect; by rewrite Hscan |].
  rewrite Hscan. cbn [fst]. intros Hin%list_elem_of_singleton. lia.
Qed.

Lemma floating_entry_not_reached_witness :
  ledger scope_of_two = [Ptr 1; Ptr 2; Ptr 3] /\
  heap scope_of_two !! 3 = Some (mkBlock 16 (mkBase (Some 2) (Some 1))) /\
  aize_mem_depth scope_of_two = 2 /\
  exists f,
    collect_scan scope_of_two = ([3], Fault f) /\
    aize_mem_collect scope_of_two = Fault f /\
    2 ∉ fst (collect_scan scope_of_two).
Proof.
  split; [by vm_compute |]. split; [by vm_compute |]. split; [by vm_compute |].
  apply (floating_entry_not_reached scope_of_two 2 3
           (mkBlock 16 (mkBase (Some 2) (Some 1))) 2 1).
  - unfold scope_of_two.
    repeat first [ apply reachable_init_header | apply reachable_after_malloc
                 | apply reach_enter | apply reach_initial ].
  - by vm_compute.
  - by vm_compute.
  - by vm_compute.
  - reflexivity.
  - reflexivity.
  - by vm_compute.
  - lia.
Defined.

(** X20. Take a ledger of fewer than 2^31 entries whose buffer fits in the
    address space, and an object of depth at least the current depth with a
    non-zero reference count.  If collect completes, it has treated the
    object exactly like an unreferenced one: the run with the reference
    count replaced by 0 gives the same state up to that replacement; every
    ledger index the scan visited that holds the object lies outside the
    ledger afterwards; the object's header is unchanged (it is not
    re-tagged) and the object is still allocated (its storage is not
    released); and it is not the object collect appends again. *)
Theorem collect_floating_entry s s' sc p b d r :
  p <> 0 ->
  heap s !! p = Some b ->
  depth (blk_hdr b) = Some d -> ref_count (blk_hdr b) = Some r ->
  aize_mem_depth s <= d -> r <> 0 ->
  0 <= len (aize_mem_bound s) < 2 ^ 31 ->
  (forall l, arr (aize_mem_bound s) = Some l ->
     sizeof_ptr * Z.of_nat (length l) < 2 ^ 64) ->
  snd (collect_scan s) = Ok sc ->
  aize_mem_collect s = Ok s' ->
  aize_mem_collect (with_ref_count p 0 s) = Ok (with_ref_count p 0 s') /\
  (forall i, i ∈ fst (collect_scan s) ->
     i < len (aize_mem_bound s) ->
     load_slot (arr (aize_mem_bound s)) i = Ok p ->
     len (aize_mem_bound s') <= i) /\
  heap s' !! p = Some b /\
  ret_obj sc <> p.
Proof.
  intros Hp Hb Hd Hr Hcur _ Hlen Hfit Hsc H.
  pose proof (collect_with_ref_count p 0 s) as Hzero. rewrite H in Hzero.
  split; [exact Hzero |]. clear Hzero.
  unfold aize_mem_collect in H. rewrite Hsc in H. cbn [bind] in H.
  apply bind_ok in H as (s1 & Hpop & H).
  unfold collect_scan in *. rewrite int_of_size_t_small in * by done.
  destruct (collect_loop _ _ _ _) as [t res] eqn:EL. cbn [fst snd] in *. subst res.
  pose proof (collect_loop_keep _ _ _ _ _ _ p b d EL Hb Hd Hcur) as [Hkeep Hret].
  pose proof (collect_loop_count _ _ _ _ _ _ EL) as [Hk Ht].
  cbn [num_to_pop ret_obj] in *.
  assert (Hne : ret_obj sc <> p) by (intros E; apply Hret in E; lia).
  assert (Hheap : heap s' = scan_heap sc).
  { pose proof (pop_mem_ok _ _ _ Hpop) as (Hh1 & _). cbn [set_heap heap] in Hh1.
    destruct (ret_obj sc =? 0).
    - injection H as <-. done.
    - apply add_mem_ok in H as (l & _ & _ & _ & _ & Hh2 & _). by rewrite Hh2. }
  split; [| split; [by rewrite Hheap | done]].
  intros i Hi Hilt Hslot.
  destruct (Ht i Hi) as [Hrange | (obj & d' & Hslot' & Hld & Hlt)].
  2:{ rewrite Hslot in Hslot'. injection Hslot' as <-.
      apply load_depth_ok in Hld as (_ & b' & Hb' & Hd').
      rewrite Hkeep in Hb'. injection Hb' as <-.
      rewrite Hd in Hd'. injection Hd' as <-. lia. }
  rewrite Z2Nat.id in * by lia.
  assert (Hk8 : size_t (num_to_pop sc * sizeof_ptr) = num_to_pop sc * 8).
  { unfold sizeof_ptr. apply size_t_small. lia. }
  assert (Hksz : size_t (num_to_pop sc) = num_to_pop sc) by (apply size_t_small; lia).
  rewrite Hksz in Hpop.
  destruct (pop_mem_in_range _ _ _ Hpop) as (l & Hl & Hin).
  { cbn [set_heap aize_mem_bound]. rewrite Hk8. lia. }
  cbn [set_heap aize_mem_bound] in Hl, Hin. rewrite Hk8 in Hin.
  rewrite Z.div_mul in Hin by done.
  specialize (Hfit l Hl). unfold sizeof_ptr in Hfit.
  assert (Hkl : num_to_pop sc <= len (aize_mem_bound s)).
  { destruct (Z.le_gt_cases (num_to_pop sc) (len (aize_mem_bound s))); [done |].
    assert (num_to_pop sc = len (aize_mem_bound s) + 1) as Hkn by lia.
    rewrite Hkn in Hin.
    replace (len (aize_mem_bound s) - (len (aize_mem_bound s) + 1)) with (-1) in Hin by lia.
    change (size_t (-1)) with (2 ^ 64 - 1) in Hin. lia. }
  pose proof (pop_mem_ok _ _ _ Hpop) as (_ & _ & Hlen1 & _).
  cbn [set_heap aize_mem_bound] in Hlen1.
  rewrite size_t_small in Hlen1 by lia.
  destruct (ret_obj sc =? 0).
  - injection H as <-. lia.
  - apply add_mem_ok in H as (l' & _ & _ & _ & Hlen' & _).
    rewrite Hlen', Hlen1. rewrite size_t_small by lia. lia.
Qed.

Lemma collect_floating_entry_witness :
  exists s',
    aize_mem_collect stale_top = Ok s' /\
    aize_mem_collect (with_ref_count 3 0 stale_top) = Ok (with_ref_count 3 0 s') /\
    len (aize_mem_bound s') <= 2 /\
    heap s' !! 3 = Some (mkBlock 16 (mkBase (Some 2) (Some 1))).
Proof.
  destruct (aize_mem_collect stale_top) as [s'|f] eqn:E; [| by vm_compute in E].
  destruct (snd (collect_scan stale_top)) as [sc|f] eqn:Esc; [| by vm_compute in Esc].
  destruct (collect_floating_entry stale_top s' sc 3
              (mkBlock 16 (mkBase (Some 2) (Some 1))) 2 1)
    as (H1 & H2 & H3 & _).
  - lia.
  - by vm_compute.
  - reflexivity.
  - reflexivity.
  - by vm_compute.
  - lia.
  - by vm_compute.
  - intros l [= <-]. by vm_compute.
  - exact Esc.
  - exact E.
  - exists s'. split; [reflexivity |]. split; [exact H1 |]. split; [| exact H3].
    apply H2; [| by vm_compute | reflexivity].
    apply list_elem_of_In. vm_compute. tauto.
Defined.

(** X19. The outcome of collect never depends on a reference count: with
    [obj->ref_count = v] stored beforehand, for any object and any value,
    collect takes the same course, completing or faulting alike, and gives
    the same state up to that store. *)
Theorem collect_ignores_ref_count p v s :
  aize_mem_collect (with_ref_count p v s)
    = rmap (with_ref_count p v) (aize_mem_collect s).
Proof. apply collect_with_ref_count. Qed.

End Floating.

(** * Further properties of the ledger *)

Section AppendMore.

Lemma ledger_eq s l :
  arr (aize_mem_bound s) = Some l ->
  ledger s = take (Z.to_nat (len (aize_mem_bound s))) l.
Proof. unfold ledger. by intros ->. Qed.

Lemma take_insert_top (l : list slot) n x :
  (n < length l)%nat -> take (S n) (<[n := x]> l) = take n l ++ [x].
Proof.
  intros Hn. rewrite (take_S_r _ _ x) by (by apply list_lookup_insert_eq).
  by rewrite take_insert_ge by lia.
Qed.

(** The ledger, the objects and the depth counter after an append that
    completes. *)
Lemma add_mem_ledger mem s s' :
  aize_mem_add_mem mem s = Ok s' ->
  len (aize_mem_bound s) + 1 < 2 ^ 64 ->
  ledger s' = ledger s ++ [Ptr mem].
Proof.
  intros H Hlen.
  pose proof (add_mem_ok _ _ _ H) as (l' & _ & [Hnn _] & _).
  destruct (Z.eq_dec (len (aize_mem_bound s)) (capacity (aize_mem_bound s))) as [Hfull|Hne].
  - destruct (Z.eq_dec (len (aize_mem_bound s)) 0) as [Hz|Hnz].
    + assert (Hs : ledger s = []).
      { unfold ledger. rewrite Hz. by destruct (arr (aize_mem_bound s)). }
      rewrite Hs. revert H. unfold aize_mem_add_mem.
      rewrite <- Hfull, Hz. cbn [Z.eqb]. unfold buf_malloc.
      destruct (START_SIZE <=? avail s); [| done].
      intros [= <-]. reflexivity.
    + destruct (add_mem_full_fault mem s) as [HF|HF]; [done | lia | |];
        rewrite HF in H; done.
  - destruct (arr (aize_mem_bound s)) as [l|] eqn:Ha.
    2:{ revert H. unfold aize_mem_add_mem.
        destruct (_ =? capacity _) eqn:E; [apply Z.eqb_eq in E; lia |].
        by rewrite Ha. }
    assert (Hl : len (aize_mem_bound s) < Z.of_nat (length l)).
    { revert H. unfold aize_mem_add_mem.
      destruct (_ =? capacity _) eqn:E; [apply Z.eqb_eq in E; lia |].
      rewrite Ha. unfold store_slot.
      destruct (0 <=? _); [| done].
      destruct (_ <? Z.of_nat (length l)) eqn:E2; [| done].
      intros _. by apply Z.ltb_lt. }
    rewrite (add_mem_room mem s l) in H by (done || lia).
    injection H as <-. unfold ledger. cbn [set_bound aize_mem_bound arr len].
    rewrite Ha, size_t_small by lia.
    replace (Z.to_nat (len (aize_mem_bound s) + 1))
      with (S (Z.to_nat (len (aize_mem_bound s)))) by lia.
    apply take_insert_top. lia.
Qed.

(** X1. An append that completes puts the reference on top of the ledger
    and leaves the entries below, the objects and the depth counter as they
    were. *)
Theorem append_adds_on_top mem s s' :
  aize_mem_add_mem mem s = Ok s' ->
  len (aize_mem_bound s) + 1 < 2 ^ 64 ->
  ledger s' = ledger s ++ [Ptr mem] /\
  heap s' = heap s /\ aize_mem_depth s' = aize_mem_depth s.
Proof.
  intros H Hlen. split; [by apply add_mem_ledger |].
  apply add_mem_ok in H as (_ & _ & _ & _ & _ & Hh & Hd). done.
Qed.

Lemma append_adds_on_top_witness :
  exists s', aize_mem_add_mem 7 stale_top = Ok s' /\
    ledger s' = [Ptr 1; Ptr 2; Ptr 3; Ptr 7].
Proof.
  destruct (aize_mem_add_mem 7 stale_top) as [s'|f] eqn:E; [| by vm_compute in E].
  destruct (append_adds_on_top 7 stale_top s' E) as (Hl & _); [by vm_compute |].
  exists s'. split; [reflexivity | exact Hl].
Defined.

(** X2. On an empty ledger that has no buffer yet, an allocation with fewer
    than 256 bytes available cannot obtain the buffer: nothing tests the
    result of [malloc], and the store of the entry goes through the null
    pointer, whether the object itself could be allocated or not. *)
Theorem allocation_without_buffer_storage bytes s :
  len (aize_mem_bound s) = 0 -> capacity (aize_mem_bound s) = 0 ->
  0 <= bytes -> avail s < START_SIZE ->
  aize_mem_malloc bytes s = Fault NullDeref.
Proof.
  intros Hl Hc Hb Ha. unfold aize_mem_malloc, c_malloc.
  destruct (bytes <=? avail s);
    cbn [fst snd]; unfold aize_mem_add_mem, buf_malloc;
    cbn [set_avail set_heap aize_mem_bound avail];
    rewrite Hl, Hc; cbn [Z.eqb];
    (destruct (START_SIZE <=? _) eqn:E; [apply Z.leb_le in E; lia |]);
    reflexivity.
Qed.

Lemma allocation_without_buffer_storage_witness :
  aize_mem_malloc 16 (initial 100) = Fault NullDeref.
Proof.
  apply (allocation_without_buffer_storage 16 (initial 100));
    [reflexivity | reflexivity | lia | by vm_compute].
Defined.

Lemma add_mem_small_ledger mem s s' :
  small_ledger (aize_mem_bound s) ->
  aize_mem_add_mem mem s = Ok s' ->
  small_ledger (aize_mem_bound s').
Proof.
  intros [Hlen [(Hc & Hl & Ha) | (Hc & l & Ha & Hl32)]] H.
  - revert H. unfold aize_mem_add_mem, buf_malloc. rewrite Hl, Hc. cbn [Z.eqb].
    destruct (START_SIZE <=? avail s); [| done].
    intros [= <-]. split; [by vm_compute |]. right.
    split; [done |]. by eexists.
  - assert (Hne : len (aize_mem_bound s) <> capacity (aize_mem_bound s))
      by (rewrite Hc; unfold START_SIZE; lia).
    pose proof (add_mem_ok _ _ _ H) as (l' & _ & Hin & _).
    assert (Hlt : len (aize_mem_bound s) < 32).
    { destruct (Z.lt_ge_cases (len (aize_mem_bound s)) 32); [done |].
      exfalso. revert H. unfold aize_mem_add_mem.
      destruct (_ =? capacity _) eqn:E; [apply Z.eqb_eq in E; lia |].
      rewrite Ha. unfold store_slot. rewrite Hl32.
      destruct (0 <=? _); [| done].
      destruct (_ <? Z.of_nat 32) eqn:E2; [apply Z.ltb_lt in E2; lia | done]. }
    rewrite (add_mem_room mem s l) in H by (done || lia).
    injection H as <-. cbn [set_bound aize_mem_bound].
    split; [cbn [len]; rewrite size_t_small by lia; lia |]. right.
    cbn [capacity arr]. split; [done |]. eexists. split; [done |].
    by rewrite length_insert.
Qed.

Lemma reachable_small_ledger s : reachable s -> small_ledger (aize_mem_bound s).
Proof.
  induction 1 as [budget | s _ IH | s bytes s' r _ IH Hm | s s' Hs IH He
                  | s obj d _ IH | s obj r _ IH]; try exact IH.
  - split; [by vm_compute |]. by left.
  - unfold aize_mem_malloc in Hm.
    pose proof (c_malloc_bound bytes s) as Hb.
    destruct (c_malloc bytes s) as [mem s1]. simpl in Hb.
    apply bind_ok in Hm as (s2 & Hadd & [= <- <-]).
    apply (add_mem_small_ledger mem s1); [by rewrite Hb | done].
  - destruct (reachable_exit_fault s Hs) as (f & _ & Hf). rewrite Hf in He. done.
Qed.

(** X3. As long as no call has faulted, that is, on every state reached
    from the initial one through calls of enter, malloc and exit that
    completed without an access outside allocated storage and through
    header stores, the ledger holds at most 32 entries, its capacity field
    is 0 or 256, and its entries are exactly its first [len] cells.  (A
    33rd registration is itself a store outside the buffer.) *)
Theorem reachable_ledger_bounds s :
  reachable s ->
  0 <= len (aize_mem_bound s) <= 32 /\
  (capacity (aize_mem_bound s) = 0 \/ capacity (aize_mem_bound s) = 256) /\
  Z.of_nat (length (ledger s)) = len (aize_mem_bound s).
Proof.
  intros H. apply reachable_small_ledger in H
    as [Hlen [(Hc & Hl & Ha) | (Hc & l & Ha & Hl32)]].
  - split; [done |]. split; [by left |]. unfold ledger. by rewrite Ha, Hl.
  - split; [done |]. split; [by right |].
    rewrite (ledger_eq s l Ha), length_take. lia.
Qed.

Lemma reachable_ledger_bounds_witness :
  0 <= len (aize_mem_bound scope_of_two) <= 32 /\
  (capacity (aize_mem_bound scope_of_two) = 0 \/
   capacity (aize_mem_bound scope_of_two) = 256) /\
  Z.of_nat (length (ledger scope_of_two)) = len (aize_mem_bound scope_of_two).
Proof.
  apply (reachable_ledger_bounds scope_of_two).
  unfold scope_of_two.
  repeat first [ apply reachable_init_header | apply reachable_after_malloc
               | apply reach_enter | apply reach_initial ].
Defined.

(** X4. Once the interface has registered 32 objects every further
    allocation stores outside the buffer, at index 32, whatever the size
    requested and however much storage is left. *)
Theorem allocation_33_faults bytes s :
  reachable s ->
  len (aize_mem_bound s) = 32 ->
  aize_mem_malloc bytes s = Fault (OutOfBounds 32).
Proof.
  intros Hr Hlen.
  apply reachable_small_ledger in Hr as [_ [(_ & Hl & _) | (Hc & l & Ha & Hl32)]];
    [lia |].
  unfold aize_mem_malloc. pose proof (c_malloc_bound bytes s) as Hb.
  destruct (c_malloc bytes s) as [mem s1]. simpl in Hb.
  unfold aize_mem_add_mem. rewrite Hb.
  destruct (_ =? capacity _) eqn:E;
    [apply Z.eqb_eq in E; rewrite Hc in E; unfold START_SIZE in E; lia |].
  rewrite Hb, Ha, Hlen. unfold store_slot. rewrite Hl32. reflexivity.
Qed.

Lemma allocation_33_faults_witness :
  aize_mem_malloc 16 (Nat.iter 32 (after_malloc 16) (initial 4096))
    = Fault (OutOfBounds 32).
Proof.
  apply (allocation_33_faults 16).
  - cbn [Nat.iter].
    repeat first [ apply reachable_after_malloc | apply reach_initial ].
  - by vm_compute.
Defined.

(** X5. With fewer than 32 objects registered and storage for the object
    and, if need be, the ledger's buffer, an allocation on a state the
    interface produced completes: it registers the new object on top of the
    ledger, with both header fields still without a value, and leaves every
    other object and the depth counter alone. *)
Theorem allocation_completes bytes s :
  reachable s ->
  len (aize_mem_bound s) < 32 ->
  bytes + START_SIZE <= avail s ->
  exists s',
    aize_mem_malloc bytes s = Ok (s', None) /\
    ledger s' = ledger s ++ [Ptr (fresh_addr (heap s))] /\
    heap s' = <[fresh_addr (heap s) := mkBlock bytes (mkBase None None)]> (heap s) /\
    aize_mem_depth s' = aize_mem_depth s.
Proof.
  intros Hr Hlt Hav. unfold START_SIZE in Hav.
  apply reachable_small_ledger in Hr as [Hlen Hshape].
  unfold aize_mem_malloc. rewrite c_malloc_ok by lia.
  set (s1 := set_avail _ _).
  assert (Hadd : exists s', aize_mem_add_mem (fresh_addr (heap s)) s1 = Ok s').
  { destruct Hshape as [(Hc & Hl & Ha) | (Hc & l & Ha & Hl32)].
    - rewrite add_mem_first; [by eexists | done | done |].
      subst s1. unfold START_SIZE. cbn. lia.
    - rewrite (add_mem_room _ s1 l); [by eexists | | done |].
      + subst s1. cbn. rewrite Hc. unfold START_SIZE. lia.
      + subst s1. cbn. lia. }
  destruct Hadd as [s' Hadd]. exists s'. rewrite Hadd. split; [done |].
  pose proof (add_mem_ledger _ _ _ Hadd) as Hled.
  apply add_mem_ok in Hadd as (_ & _ & _ & _ & _ & Hh & Hd).
  split; [| split; [by rewrite Hh | by rewrite Hd]].
  rewrite Hled by (subst s1; cbn; lia). done.
Qed.

Lemma allocation_completes_witness :
  exists s',
    aize_mem_malloc 16 scope_of_two = Ok (s', None) /\
    ledger s' = [Ptr 1; Ptr 2; Ptr 3; Ptr 4].
Proof.
  destruct (allocation_completes 16 scope_of_two) as (s' & Hm & Hl & _).
  - unfold scope_of_two.
    repeat first [ apply reachable_init_header | apply reachable_after_malloc
                 | apply reach_enter | apply reach_initial ].
  - by vm_compute.
  - by vm_compute.
  - exists s'. split; [exact Hm | exact Hl].
Defined.

End AppendMore.

Section TruncateMore.

Lemma memset_null_ok a start nbytes a1 :
  memset_null a start nbytes = Ok a1 ->
  (nbytes = 0 /\ a1 = a) \/
  (exists l, a = Some l /\ 0 <= start /\
     start + nbytes / sizeof_ptr <= Z.of_nat (length l) /\
     a1 = Some (take (Z.to_nat start) l
                ++ replicate (Z.to_nat (nbytes / sizeof_ptr)) (Ptr 0)
                ++ drop (Z.to_nat (start + nbytes / sizeof_ptr)) l)).
Proof.
  unfold memset_null.
  destruct (nbytes =? 0) eqn:E; [apply Z.eqb_eq in E; intros [= <-]; by left |].
  destruct a as [l|]; [| done].
  destruct (0 <=? start) eqn:E1; [| done].
  destruct (_ <=? Z.of_nat (length l)) eqn:E2; [| done].
  apply Z.leb_le in E1, E2. intros [= <-]. right. eauto.
Qed.

(** The result of a truncation written out, when the shrink test cannot
    pass. *)
Lemma pop_mem_explicit num s l :
  no_shrink (aize_mem_bound s) ->
  arr (aize_mem_bound s) = Some l ->
  0 <= num <= len (aize_mem_bound s) ->
  len (aize_mem_bound s) <= Z.of_nat (length l) ->
  Z.of_nat (length l) < 2 ^ 61 ->
  aize_mem_pop_mem num s =
    Ok (set_bound
          (mkList (capacity (aize_mem_bound s)) (len (aize_mem_bound s) - num)
             (Some (take (Z.to_nat (len (aize_mem_bound s) - num)) l
                    ++ replicate (Z.to_nat num) (Ptr 0)
                    ++ drop (Z.to_nat (len (aize_mem_bound s))) l))) s).
Proof.
  intros Hns Ha Hnum Hl Hfit. unfold no_shrink in Hns.
  unfold aize_mem_pop_mem. rewrite Ha.
  rewrite (size_t_small (len _ - num)) by lia.
  assert (H8 : size_t (num * sizeof_ptr) = num * 8)
    by (unfold sizeof_ptr; apply size_t_small; lia).
  rewrite H8.
  assert (Hcond : (SCALE_FACTOR * START_SIZE <? capacity (aize_mem_bound s)) = false)
    by (apply Z.ltb_ge; lia).
  unfold memset_null.
  destruct (num * 8 =? 0) eqn:E.
  - apply Z.eqb_eq in E. assert (num = 0) as -> by lia.
    cbn [bind]. rewrite Hcond. cbn [andb]. do 3 f_equal.
    rewrite Z.sub_0_r. change (replicate (Z.to_nat 0) (Ptr 0)) with (@nil slot).
    cbn [app]. by rewrite take_drop.
  - unfold sizeof_ptr. rewrite Z.div_mul by done.
    destruct (0 <=? _) eqn:E1; [| apply Z.leb_gt in E1; lia].
    destruct (_ <=? Z.of_nat (length l)) eqn:E2; [| apply Z.leb_gt in E2; lia].
    cbn [andb bind]. rewrite Hcond. cbn [andb].
    by replace (len (aize_mem_bound s) - num + num) with (len (aize_mem_bound s)) by lia.
Qed.

Lemma add_mem_no_shrink mem s s' :
  aize_mem_add_mem mem s = Ok s' ->
  no_shrink (aize_mem_bound s) -> no_shrink (aize_mem_bound s').
Proof.
  unfold no_shrink. intros H Hns.
  pose proof (add_mem_ok _ _ _ H) as (l' & _ & [Hnn _] & _).
  destruct (Z.eq_dec (len (aize_mem_bound s)) (capacity (aize_mem_bound s))) as [Hfull|Hne].
  - destruct (Z.eq_dec (len (aize_mem_bound s)) 0) as [Hz|Hnz].
    + revert H. unfold aize_mem_add_mem, buf_malloc.
      rewrite <- Hfull, Hz. cbn [Z.eqb].
      destruct (START_SIZE <=? avail s); [| done].
      intros [= <-]. by vm_compute.
    + destruct (add_mem_full_fault mem s) as [HF|HF]; [done | lia | |];
        rewrite HF in H; done.
  - revert H. unfold aize_mem_add_mem.
    destruct (_ =? capacity _) eqn:E; [apply Z.eqb_eq in E; lia |].
    destruct (store_slot _ _ _); [| done]. by intros [= <-].
Qed.

(** The ledger after a truncation, against the ledger before. *)
Lemma pop_mem_prefix num s s' :
  aize_mem_pop_mem num s = Ok s' ->
  0 <= num <= len (aize_mem_bound s) ->
  len (aize_mem_bound s) < 2 ^ 64 ->
  Z.of_nat (length (ledger s)) = len (aize_mem_bound s) ->
  ledger s' `prefix_of` ledger s /\
  (no_shrink (aize_mem_bound s) ->
   ledger s' = take (Z.to_nat (len (aize_mem_bound s) - num)) (ledger s)).
Proof.
  intros H Hnum Hlen Hall. unfold aize_mem_pop_mem in H.
  apply bind_ok in H as (a1 & Hm & H).
  rewrite (size_t_small (len _ - num)) in * by lia.
  set (k := Z.to_nat (len (aize_mem_bound s) - num)) in *.
  assert (Hk : (k <= Z.to_nat (len (aize_mem_bound s)))%nat) by lia.
  destruct (arr (aize_mem_bound s)) as [l|] eqn:Ha.
  2:{ (* no buffer: the ledger is empty *)
      assert (ledger s = []) as Hs by (unfold ledger; by rewrite Ha).
      rewrite Hs in *. cbn in Hall.
      apply memset_null_ok in Hm as [[_ ->] | (l & [=] & _)].
      assert (Hs' : ledger s' = []).
      { destruct (_ && _).
        - destruct (buf_realloc None _ s) as [a2 s0].
          injection H as <-. unfold ledger. cbn.
          destruct a2; [| done].
          by replace (Z.to_nat (len (aize_mem_bound s) - num)) with 0%nat by lia.
        - injection H as <-. done. }
      rewrite Hs'. split; [done |]. intros _. by rewrite take_nil. }
  rewrite (ledger_eq s l Ha) in *. rewrite length_take in Hall.
  assert (Hl : (Z.to_nat (len (aize_mem_bound s)) <= length l)%nat) by lia.
  assert (Ha1 : exists l1, a1 = Some l1 /\ length l1 = length l /\ take k l1 = take k l).
  { apply memset_null_ok in Hm as [[_ ->] | (l0 & [= <-] & Hs0 & Hin & ->)];
      [by eexists |].
    eexists. split; [done |]. fold k.
    assert (Hkl : (k <= length l)%nat) by lia.
    assert (Hn : 0 <= size_t (num * sizeof_ptr) / sizeof_ptr).
    { apply Z.div_pos; [| done]. unfold size_t.
      apply Z.mod_pos_bound. lia. }
    revert Hin Hn. generalize (size_t (num * sizeof_ptr) / sizeof_ptr).
    intros n Hin Hn.
    split.
    - rewrite !length_app, length_take, length_replicate, length_drop. lia.
    - rewrite take_app_le by (rewrite length_take; lia).
      rewrite take_take. f_equal. lia. }
  destruct Ha1 as (l1 & -> & Hlen1 & Htake).
  assert (Hexact : take k l = take k (take (Z.to_nat (len (aize_mem_bound s))) l)).
  { rewrite take_take. f_equal. lia. }
  destruct (_ && _) eqn:Etest.
  - destruct (buf_realloc (Some l1) _ s) as [a2 s0] eqn:ER.
    injection H as <-. split.
    + unfold ledger. cbn [set_bound aize_mem_bound arr len]. fold k.
      destruct a2 as [l2|]; [| apply prefix_nil].
      unfold buf_realloc in ER. destruct (_ <=? _); [| done].
      injection ER as <- _. rewrite resize_spec.
      set (m := Z.to_nat (_ / sizeof_ptr)).
      destruct (decide (m <= length l1)%nat) as [Hm1|Hm1].
      * replace (m - length l1)%nat with 0%nat by lia.
        cbn [replicate]. rewrite app_nil_r, take_take.
        destruct (decide (k <= m)%nat).
        -- replace (k `min` m)%nat with k by lia. rewrite Htake, Hexact.
           apply prefix_take.
        -- replace (k `min` m)%nat with m by lia.
           exists (drop m (take (Z.to_nat (len (aize_mem_bound s))) l)).
           rewrite <- (take_drop m (take (Z.to_nat (len (aize_mem_bound s))) l)) at 1.
           f_equal. rewrite take_take.
           replace (m `min` Z.to_nat (len (aize_mem_bound s)))%nat with m by lia.
           transitivity (take m (take k l));
             [rewrite take_take; f_equal; lia |].
           rewrite <- Htake, take_take. f_equal. lia.
      * rewrite (take_ge l1 m) by lia. rewrite take_app_le by lia.
        rewrite Htake, Hexact. apply prefix_take.
    + intros Hns. unfold no_shrink in Hns.
      apply andb_true_iff in Etest as [E1 _]. apply Z.ltb_lt in E1. lia.
  - injection H as <-. unfold ledger. cbn [set_bound aize_mem_bound arr len].
    fold k. rewrite Htake, Hexact. split; [| done].
    apply prefix_take.
Qed.

(** X6. A truncation by at most the length of the ledger never alters or
    reorders what stays: the ledger afterwards is a prefix of the ledger
    before, and it is exactly the first [len - num] entries when the
    capacity is at most 512, where the buffer is not resized. *)
Theorem truncate_keeps_prefix num s s' :
  aize_mem_pop_mem num s = Ok s' ->
  0 <= num <= len (aize_mem_bound s) ->
  len (aize_mem_bound s) < 2 ^ 64 ->
  Z.of_nat (length (ledger s)) = len (aize_mem_bound s) ->
  ledger s' `prefix_of` ledger s /\
  (no_shrink (aize_mem_bound s) ->
   ledger s' = take (Z.to_nat (len (aize_mem_bound s) - num)) (ledger s)).
Proof. apply pop_mem_prefix. Qed.

Lemma truncate_keeps_prefix_witness :
  exists s', aize_mem_pop_mem 2 stale_top = Ok s' /\ ledger s' = [Ptr 1].
Proof.
  destruct (aize_mem_pop_mem 2 stale_top) as [s'|f] eqn:E; [| by vm_compute in E].
  destruct (truncate_keeps_prefix 2 stale_top s' E) as [_ Hx];
    [by vm_compute | by vm_compute | by vm_compute |].
  exists s'. split; [reflexivity |]. rewrite Hx; by vm_compute.
Defined.

Lemma lookup_cleared (l : list slot) A N i :
  (A + N <= length l)%nat ->
  (take A l ++ replicate N (Ptr 0) ++ drop (A + N) l) !! i =
    if decide (A <= i < A + N)%nat then Some (Ptr 0) else l !! i.
Proof.
  intros Hl. case_decide as Hi.
  - rewrite lookup_app_r by (rewrite length_take; lia).
    rewrite length_take, lookup_app_l by (rewrite length_replicate; lia).
    apply lookup_replicate_2. lia.
  - destruct (decide (i < A)%nat).
    + rewrite lookup_app_l by (rewrite length_take; lia).
      by apply lookup_take_lt.
    + rewrite lookup_app_r by (rewrite length_take; lia).
      rewrite length_take, lookup_app_r by (rewrite length_replicate; lia).
      rewrite length_replicate, lookup_drop. f_equal. lia.
Qed.

(** X7. With the capacity at most 512 a truncation by at most the length
    of the ledger completes whenever the entries lie in the buffer; it
    lowers the length by [num], keeps the capacity, sets exactly the cells
    of the removed entries to null and leaves every other cell and every
    object as it was. *)
Theorem truncate_clears_cells num s l :
  no_shrink (aize_mem_bound s) ->
  arr (aize_mem_bound s) = Some l ->
  0 <= num <= len (aize_mem_bound s) ->
  len (aize_mem_bound s) <= Z.of_nat (length l) ->
  Z.of_nat (length l) < 2 ^ 61 ->
  exists s',
    aize_mem_pop_mem num s = Ok s' /\
    len (aize_mem_bound s') = len (aize_mem_bound s) - num /\
    capacity (aize_mem_bound s') = capacity (aize_mem_bound s) /\
    heap s' = heap s /\
    forall i, 0 <= i ->
      cell s' i =
        if (len (aize_mem_bound s) - num <=? i) && (i <? len (aize_mem_bound s))
        then Some (Ptr 0) else cell s i.
Proof.
  intros Hns Ha Hnum Hl Hfit.
  eexists. split; [by apply pop_mem_explicit |].
  cbn [set_bound aize_mem_bound len capacity heap]. repeat split.
  intros i Hi. unfold cell. cbn [set_bound aize_mem_bound arr]. rewrite Ha.
  destruct (0 <=? i) eqn:E0; [| apply Z.leb_gt in E0; lia].
  replace (Z.to_nat (len (aize_mem_bound s)))
    with (Z.to_nat (len (aize_mem_bound s) - num) + Z.to_nat num)%nat by lia.
  rewrite lookup_cleared by lia.
  destruct ((len (aize_mem_bound s) - num <=? i) && (i <? len (aize_mem_bound s)))
    eqn:E.
  - apply andb_true_iff in E as [E1%Z.leb_le E2%Z.ltb_lt].
    case_decide as Hd; [done | lia].
  - case_decide as Hd; [| done].
    apply andb_false_iff in E as [E1%Z.leb_gt | E2%Z.ltb_ge]; lia.
Qed.

Lemma truncate_clears_cells_witness :
  exists s',
    aize_mem_pop_mem 2 stale_top = Ok s' /\
    len (aize_mem_bound s') = 1 /\
    cell s' 0 = Some (Ptr 1) /\ cell s' 1 = Some (Ptr 0) /\
    cell s' 2 = Some (Ptr 0) /\ cell s' 3 = Some (Ptr 3).
Proof.
  destruct (truncate_clears_cells 2 stale_top
              ([Ptr 1; Ptr 2; Ptr 3; Ptr 3] ++ replicate 28 Indet))
    as (s' & Hp & Hlen & _ & _ & Hc);
    [by vm_compute | reflexivity | by vm_compute | by vm_compute | by vm_compute |].
  exists s'. split; [exact Hp |]. split; [exact Hlen |].
  repeat split; rewrite Hc by lia; reflexivity.
Defined.

(** A truncation by more than the length of the ledger. *)
Lemma pop_mem_overrun num s :
  0 <= len (aize_mem_bound s) < num -> num < 2 ^ 61 ->
  (forall l, arr (aize_mem_bound s) = Some l -> Z.of_nat (length l) < 2 ^ 61) ->
  aize_mem_pop_mem num s = Fault NullDeref \/
  aize_mem_pop_mem num s
    = Fault (OutOfBounds (2 ^ 64 + len (aize_mem_bound s) - num)).
Proof.
  intros Hlen Hnum Hfit. unfold aize_mem_pop_mem.
  assert (Hstart : size_t (len (aize_mem_bound s) - num)
                   = 2 ^ 64 + len (aize_mem_bound s) - num).
  { unfold size_t.
    rewrite <- (Z_mod_plus_full (len (aize_mem_bound s) - num) 1 (2 ^ 64)).
    rewrite Z.mod_small; lia. }
  assert (H8 : size_t (num * sizeof_ptr) = num * 8)
    by (unfold sizeof_ptr; apply size_t_small; lia).
  rewrite Hstart, H8. unfold memset_null.
  destruct (num * 8 =? 0) eqn:E; [apply Z.eqb_eq in E; lia |].
  destruct (arr (aize_mem_bound s)) as [l|] eqn:Ha; [right | by left].
  specialize (Hfit l eq_refl).
  unfold sizeof_ptr. rewrite Z.div_mul by done.
  destruct (0 <=? _); cbn [andb]; [| done].
  destruct (_ <=? Z.of_nat (length l)) eqn:E2; [apply Z.leb_le in E2; lia | done].
Qed.



Lemma add_mem_buffer_length mem s s' l' :
  aize_mem_add_mem mem s = Ok s' ->
  arr (aize_mem_bound s') = Some l' ->
  length l' = 32%nat \/
  exists l, arr (aize_mem_bound s) = Some l /\ length l' = length l.
Proof.
  intros H Hl'.
  pose proof (add_mem_ok _ _ _ H) as (l0 & _ & [Hnn Hlt] & _).
  destruct (Z.eq_dec (len (aize_mem_bound s)) (capacity (aize_mem_bound s))) as [Hfull|Hne].
  - destruct (Z.eq_dec (len (aize_mem_bound s)) 0) as [Hz|Hnz].
    + left. revert H. unfold aize_mem_add_mem, buf_malloc.
      rewrite <- Hfull, Hz. cbn [Z.eqb].
      destruct (START_SIZE <=? avail s); [| done].
      intros [= <-]. by injection Hl' as <-.
    + destruct (add_mem_full_fault mem s) as [HF|HF]; [done | lia | |];
        rewrite HF in H; done.
  - right. revert H. unfold aize_mem_add_mem.
    destruct (_ =? capacity _) eqn:E; [apply Z.eqb_eq in E; lia |].
    unfold store_slot. destruct (arr (aize_mem_bound s)) as [l|]; [| done].
    destruct (_ && _); [| done]. intros [= <-].
    injection Hl' as <-. exists l. by rewrite length_insert.
Qed.

(** X9. An append followed by a truncation of one entry gives the ledger
    back: with the capacity at most 512 the truncation completes, the
    entries, the length and the objects are those before the append, and
    the cell the entry was stored in holds null. *)
Theorem append_truncate_round_trip mem s s1 :
  aize_mem_add_mem mem s = Ok s1 ->
  no_shrink (aize_mem_bound s) ->
  (forall l, arr (aize_mem_bound s) = Some l -> Z.of_nat (length l) < 2 ^ 61) ->
  exists s2,
    aize_mem_pop_mem 1 s1 = Ok s2 /\
    ledger s2 = ledger s /\
    len (aize_mem_bound s2) = len (aize_mem_bound s) /\
    heap s2 = heap s /\
    cell s2 (len (aize_mem_bound s)) = Some (Ptr 0).
Proof.
  intros Hadd Hns Hfit.
  pose proof (add_mem_ok _ _ _ Hadd) as (l' & Hl' & [Hnn Hlt] & Htop & Hlen1 & Hh & _).
  assert (Hfit' : Z.of_nat (length l') < 2 ^ 61).
  { destruct (add_mem_buffer_length _ _ _ _ Hadd Hl') as [-> | (l & Ha & ->)];
      [by vm_compute | by apply Hfit]. }
  rewrite size_t_small in Hlen1 by lia.
  pose proof (add_mem_ledger _ _ _ Hadd ltac:(lia)) as Hled.
  assert (Hlen_s : length (ledger s) = Z.to_nat (len (aize_mem_bound s))).
  { assert (length (ledger s1) = S (Z.to_nat (len (aize_mem_bound s)))) as Hx.
    { rewrite (ledger_eq s1 l' Hl'), length_take, Hlen1. lia. }
    rewrite Hled, length_app in Hx. cbn in Hx. lia. }
  eexists. split.
  { apply (pop_mem_explicit 1 s1 l'); [by eapply add_mem_no_shrink | done | lia | lia | done]. }
  rewrite Hlen1. replace (len (aize_mem_bound s) + 1 - 1) with (len (aize_mem_bound s)) by lia.
  split; [| split; [done | split; [done |]]].
  - unfold ledger at 1. cbn [set_bound aize_mem_bound arr len].
    rewrite take_app_le by (rewrite length_take; lia).
    rewrite take_take.
    replace (Z.to_nat (len (aize_mem_bound s)) `min` Z.to_nat (len (aize_mem_bound s)))%nat
      with (Z.to_nat (len (aize_mem_bound s)) `min` Z.to_nat (len (aize_mem_bound s) + 1))%nat
      by lia.
    rewrite <- take_take, <- Hlen1, <- (ledger_eq s1 l' Hl'), Hled.
    by rewrite take_app_length' by done.
  - unfold cell. cbn [set_bound aize_mem_bound arr].
    destruct (0 <=? _) eqn:E0; [| apply Z.leb_gt in E0; lia].
    replace (Z.to_nat (len (aize_mem_bound s) + 1))
      with (Z.to_nat (len (aize_mem_bound s)) + Z.to_nat 1)%nat by lia.
    rewrite lookup_cleared by lia.
    case_decide as Hd; [done | lia].
Qed.

Lemma append_truncate_round_trip_witness :
  exists s1 s2,
    aize_mem_add_mem 7 stale_top = Ok s1 /\
    aize_mem_pop_mem 1 s1 = Ok s2 /\
    ledger s2 = [Ptr 1; Ptr 2; Ptr 3] /\
    cell s2 3 = Some (Ptr 0).
Proof.
  destruct (aize_mem_add_mem 7 stale_top) as [s1|f] eqn:E; [| by vm_compute in E].
  destruct (append_truncate_round_trip 7 stale_top s1 E)
    as (s2 & Hp & Hl & _ & _ & Hc);
    [by vm_compute | intros l [= <-]; by vm_compute |].
  exists s1, s2. split; [reflexivity |]. split; [exact Hp |].
  split; [exact Hl | exact Hc].
Defined.

(** X10. With the capacity at most 512, truncating by [a] and then by [b]
    is the same as truncating by [a + b] at once, as long as the ledger
    holds that many entries. *)
Theorem truncate_twice a b s l :
  no_shrink (aize_mem_bound s) ->
  arr (aize_mem_bound s) = Some l ->
  0 <= a -> 0 <= b -> a + b <= len (aize_mem_bound s) ->
  len (aize_mem_bound s) <= Z.of_nat (length l) ->
  Z.of_nat (length l) < 2 ^ 61 ->
  bind (aize_mem_pop_mem a s) (aize_mem_pop_mem b) = aize_mem_pop_mem (a + b) s /\
  exists s', aize_mem_pop_mem (a + b) s = Ok s'.
Proof.
  intros Hns Ha Hann Hbnn Hab Hl Hfit.
  rewrite (pop_mem_explicit a s l) by (done || lia).
  rewrite (pop_mem_explicit (a + b) s l) by (done || lia).
  split; [| by eexists]. cbn [bind].
  set (L := Z.to_nat (len (aize_mem_bound s))).
  set (A := Z.to_nat (len (aize_mem_bound s) - a)).
  set (l1 := take A l ++ replicate (Z.to_nat a) (Ptr 0) ++ drop L l).
  assert (Hlen1 : length l1 = length l).
  { subst l1. rewrite !length_app, length_take, length_replicate, length_drop. lia. }
  rewrite (pop_mem_explicit b _ l1);
    [| done | done | cbn; lia | cbn; lia | cbn; lia].
  cbn [set_bound aize_mem_bound len capacity arr aize_mem_depth heap avail].
  replace (len (aize_mem_bound s) - (a + b))
    with (len (aize_mem_bound s) - a - b) by lia.
  set (B := Z.to_nat (len (aize_mem_bound s) - a - b)). fold A.
  assert (HBA : (B <= A)%nat) by lia.
  assert (HAl : (A <= length l)%nat) by lia.
  assert (Hlist : take B l1 ++ replicate (Z.to_nat b) (Ptr 0) ++ drop A l1
                  = take B l ++ replicate (Z.to_nat (a + b)) (Ptr 0) ++ drop L l).
  { subst l1.
    rewrite take_app_le by (rewrite length_take; lia).
    rewrite take_take. replace (B `min` A)%nat with B by lia.
    rewrite drop_app_length' by (rewrite length_take; lia).
    f_equal. rewrite app_assoc, <- replicate_add. do 2 f_equal. lia. }
  by rewrite Hlist.
Qed.

Lemma truncate_twice_witness :
  bind (aize_mem_pop_mem 1 stale_top) (aize_mem_pop_mem 2)
    = aize_mem_pop_mem 3 stale_top /\
  exists s', aize_mem_pop_mem 3 stale_top = Ok s'.
Proof.
  apply (truncate_twice 1 2 stale_top
           ([Ptr 1; Ptr 2; Ptr 3; Ptr 3] ++ replicate 28 Indet));
    [by vm_compute | reflexivity | lia | lia | by vm_compute
    | by vm_compute | by vm_compute].
Defined.

(** X18. When the shrink test passes, the truncation resizes the buffer to
    half the capacity in bytes, not in entries: afterwards the capacity
    field is halved, and the ledger records at most an eighth of that many
    entries, however large [len] still is. *)
Theorem shrink_cuts_buffer num s s' :
  aize_mem_pop_mem num s = Ok s' ->
  SCALE_FACTOR * START_SIZE < capacity (aize_mem_bound s) ->
  size_t (size_t (len (aize_mem_bound s) - num) - num)
    < capacity (aize_mem_bound s) / SHRINK_WHEN ->
  capacity (aize_mem_bound s') = capacity (aize_mem_bound s) / SCALE_FACTOR /\
  Z.of_nat (length (ledger s')) <= capacity (aize_mem_bound s') / sizeof_ptr.
Proof.
  intros H Hcap Htest. unfold aize_mem_pop_mem in H.
  apply bind_ok in H as (a1 & _ & H).
  destruct (_ <? capacity _) eqn:E1; [| apply Z.ltb_ge in E1; lia].
  destruct (_ <? _ / SHRINK_WHEN) eqn:E2; [| apply Z.ltb_ge in E2; lia].
  cbn [andb] in H.
  destruct (buf_realloc a1 _ s) as [a2 s0] eqn:ER. injection H as <-.
  cbn [set_bound aize_mem_bound capacity]. split; [done |].
  unfold ledger. cbn [set_bound aize_mem_bound arr len].
  assert (Hnn : 0 <= (capacity (aize_mem_bound s) / SCALE_FACTOR) / sizeof_ptr).
  { apply Z.div_pos; [| done]. apply Z.div_pos; [| done].
    unfold SCALE_FACTOR, START_SIZE in Hcap. lia. }
  destruct a2 as [l2|]; [| cbn; lia].
  apply buf_realloc_length in ER. rewrite length_take, ER. lia.
Qed.

Lemma shrink_cuts_buffer_witness :
  exists s', aize_mem_pop_mem 100 (roomy 1024 400) = Ok s' /\
    len (aize_mem_bound s') = 300 /\
    capacity (aize_mem_bound s') = 512 /\
    Z.of_nat (length (ledger s')) <= 64.
Proof.
  destruct (aize_mem_pop_mem 100 (roomy 1024 400)) as [s'|f] eqn:E;
    [| by vm_compute in E].
  destruct (shrink_cuts_buffer 100 (roomy 1024 400) s' E) as [Hc Hl];
    [by vm_compute | by vm_compute |].
  exists s'. split; [reflexivity |].
  split; [by apply pop_mem_ok in E as (_ & _ & -> & _) |].
  split; [exact Hc |]. rewrite Hc in Hl. exact Hl.
Defined.

End TruncateMore.

Section CollectMore.

Lemma collect_loop_trace_step n cur a sc :
  fst (collect_loop (S n) cur a sc) = [Z.of_nat n] \/
  exists sc1, fst (collect_loop (S n) cur a sc)
              = Z.of_nat n :: fst (collect_loop n cur a sc1).
Proof.
  cbn [collect_loop].
  destruct (load_slot a (Z.of_nat n)) as [obj|f]; [| by left].
  destruct (load_depth obj (scan_heap sc)) as [d|f]; [| by left].
  destruct (cur <=? d).
  - destruct (ref_count_nonzero obj (scan_heap sc));
      (destruct (incr_num sc) as [sc1|f]; [| by left]);
      right; exists sc1; by destruct (collect_loop n cur a sc1).
  - destruct (d =? 0); [| by left].
    destruct (incr_num _) as [sc2|f]; [| by left].
    right. exists sc2. by destruct (collect_loop n cur a sc2).
Qed.

Lemma collect_loop_trace n cur a sc j x :
  fst (collect_loop n cur a sc) !! j = Some x ->
  x = Z.of_nat n - 1 - Z.of_nat j /\ (j < n)%nat.
Proof.
  revert sc j. induction n as [|n IH]; intros sc j; [done |].
  destruct (collect_loop_trace_step n cur a sc) as [-> | [sc1 ->]].
  - destruct j; [| done]. intros [= <-]. split; lia.
  - destruct j as [|j]; [intros [= <-]; split; lia |].
    cbn. intros H. apply IH in H as [-> ?]. split; lia.
Qed.

(** X11. The scan of collect reads the buffer top-down without skipping a
    cell: the cell it reads in its [j]-th step, counted from 0, is the cell
    at index [len - j], whether the scan completes or faults. *)
Theorem scan_visits_in_order s j x :
  0 <= len (aize_mem_bound s) < 2 ^ 31 ->
  fst (collect_scan s) !! j = Some x ->
  x = len (aize_mem_bound s) - Z.of_nat j /\ 0 <= x.
Proof.
  intros Hlen. unfold collect_scan. rewrite int_of_size_t_small by done.
  intros H. apply collect_loop_trace in H as [-> Hj]. lia.
Qed.

Lemma scan_visits_in_order_witness :
  fst (collect_scan stale_top) = [3; 2; 1; 0] /\
  (3 = len (aize_mem_bound stale_top) - Z.of_nat 0 /\ 0 <= 3).
Proof.
  split; [by vm_compute |].
  apply (scan_visits_in_order stale_top 0 3); by vm_compute.
Defined.




(** The three parts of a collection that completes. *)
Lemma collect_ok s s' :
  aize_mem_collect s = Ok s' ->
  exists sc s1,
    snd (collect_scan s) = Ok sc /\
    aize_mem_pop_mem (size_t (num_to_pop sc)) (set_heap (scan_heap sc) s) = Ok s1 /\
    (if ret_obj sc =? 0 then s' = s1 else aize_mem_add_mem (ret_obj sc) s1 = Ok s') /\
    heap s' = scan_heap sc /\ aize_mem_depth s' = aize_mem_depth s.
Proof.
  unfold aize_mem_collect. intros H.
  apply bind_ok in H as (sc & Hsc & H).
  apply bind_ok in H as (s1 & Hpop & H).
  exists sc, s1. split; [done |]. split; [done |].
  pose proof (pop_mem_ok _ _ _ Hpop) as (Hh & Hd & _).
  destruct (ret_obj sc =? 0).
  - injection H as <-. done.
  - split; [done |].
    apply add_mem_ok in H as (_ & _ & _ & _ & _ & Hh2 & Hd2).
    rewrite Hh2, Hd2. done.
Qed.



Lemma collect_loop_length n cur a sc t sc' :
  collect_loop n cur a sc = (t, Ok sc') ->
  Z.of_nat (length t) = num_to_pop sc' - num_to_pop sc \/
  Z.of_nat (length t) = num_to_pop sc' - num_to_pop sc + 1.
Proof.
  revert sc t. induction n as [|n IH]; intros sc t H.
  - inversion H; subst. left. cbn. lia.
  - apply collect_loop_S in H
      as (obj & d & _ & _ & [(_ & _ & t' & -> & H) | [(_ & _ & _ & t' & -> & H) | (_ & _ & -> & ->)]]).
    + apply IH in H. cbn [num_to_pop length] in *. lia.
    + apply IH in H. cbn [num_to_pop length] in *. lia.
    + right. cbn. lia.
Qed.

(** X13. When the scan completes with [k] cells counted for removal, these
    are the cells at the indices [i0], [i0 - 1], ..., [i0 - k + 1], where
    [i0] is the length as [int i = aize_mem_bound.len] converts it; [k] is at
    most [i0 + 1], and the scan read at most one cell more.  For a ledger of
    fewer than 2^31 entries [i0] is [len]: the count includes the cell above
    the top and stops one short of the lowest entry that is then removed. *)
Theorem collect_counted_cells s sc :
  snd (collect_scan s) = Ok sc ->
  0 <= num_to_pop sc <= Z.max 0 (int_of_size_t (len (aize_mem_bound s)) + 1) /\
  (Z.of_nat (length (fst (collect_scan s))) = num_to_pop sc \/
   Z.of_nat (length (fst (collect_scan s))) = num_to_pop sc + 1) /\
  (forall j, 0 <= j < num_to_pop sc ->
     fst (collect_scan s) !! Z.to_nat j
       = Some (int_of_size_t (len (aize_mem_bound s)) - j)) /\
  (0 <= len (aize_mem_bound s) < 2 ^ 31 ->
   int_of_size_t (len (aize_mem_bound s)) = len (aize_mem_bound s)).
Proof.
  intros Hsc. split; [| split; [| split; [| apply int_of_size_t_small]]];
    unfold collect_scan in *;
    set (i0 := int_of_size_t (len (aize_mem_bound s))) in *;
    destruct (collect_loop _ _ _ _) as [t r] eqn:EL; cbn [fst snd] in *; subst r;
    pose proof (collect_loop_count _ _ _ _ _ _ EL) as [Hk _];
    pose proof (collect_loop_length _ _ _ _ _ _ EL) as Hlt;
    cbn [num_to_pop] in *; rewrite Z.sub_0_r in *.
  - lia.
  - done.
  - intros j Hj.
    destruct (lookup_lt_is_Some_2 t (Z.to_nat j)) as [x Hx]; [lia |].
    rewrite Hx. f_equal.
    assert (Ht : fst (collect_loop (Z.to_nat (i0 + 1))
                        (aize_mem_depth s) (arr (aize_mem_bound s))
                        (mkScan 0 0 (heap s))) !! Z.to_nat j = Some x)
      by (by rewrite EL).
    apply collect_loop_trace in Ht as [-> _]. lia.
Qed.

Lemma collect_counted_cells_witness :
  exists sc, snd (collect_scan stale_top) = Ok sc /\ num_to_pop sc = 3 /\
    fst (collect_scan stale_top) !! 2%nat = Some 1.
Proof.
  destruct (snd (collect_scan stale_top)) as [sc|f] eqn:E; [| by vm_compute in E].
  destruct (collect_counted_cells stale_top sc E) as (_ & _ & H & _).
  assert (Hk : num_to_pop sc = 3) by (vm_compute in E; by injection E as <-).
  exists sc. split; [reflexivity |]. split; [exact Hk |].
  apply (H 2). rewrite Hk. lia.
Defined.

Lemma ledger_set_heap h s : ledger (set_heap h s) = ledger s.
Proof. done. Qed.

(** X14. The ledger after a collection that completes, for a capacity of
    at most 512: with [k] cells counted, the top [k] entries are removed,
    and the returned object, if the scan found one, is appended to what
    remains.  In particular [k] never exceeds the length. *)
Theorem collect_ledger_after s s' sc :
  aize_mem_collect s = Ok s' ->
  snd (collect_scan s) = Ok sc ->
  0 <= len (aize_mem_bound s) < 2 ^ 31 ->
  no_shrink (aize_mem_bound s) ->
  (forall l, arr (aize_mem_bound s) = Some l -> Z.of_nat (length l) < 2 ^ 61) ->
  Z.of_nat (length (ledger s)) = len (aize_mem_bound s) ->
  0 <= num_to_pop sc <= len (aize_mem_bound s) /\
  ledger s' =
    take (Z.to_nat (len (aize_mem_bound s) - num_to_pop sc)) (ledger s)
    ++ (if ret_obj sc =? 0 then [] else [Ptr (ret_obj sc)]).
Proof.
  intros H Hsc Hlen Hns Hfit Hall.
  apply collect_ok in H as (sc0 & s1 & Hsc0 & Hpop & Hret & _).
  rewrite Hsc in Hsc0. injection Hsc0 as <-.
  assert (Hk : 0 <= num_to_pop sc <= len (aize_mem_bound s) + 1).
  { unfold collect_scan in Hsc. rewrite int_of_size_t_small in Hsc by done.
    destruct (collect_loop _ _ _ _) as [t r] eqn:EL. cbn [snd] in Hsc. subst r.
    pose proof (collect_loop_count _ _ _ _ _ _ EL) as [Hk _].
    cbn [num_to_pop] in Hk. lia. }
  rewrite size_t_small in Hpop by lia.
  assert (Hkl : num_to_pop sc <= len (aize_mem_bound s)).
  { destruct (Z.le_gt_cases (num_to_pop sc) (len (aize_mem_bound s))); [done |].
    destruct (pop_mem_overrun (num_to_pop sc) (set_heap (scan_heap sc) s))
      as [HF|HF]; [cbn; lia | lia | done | |]; rewrite HF in Hpop; done. }
  split; [lia |].
  pose proof (pop_mem_prefix _ _ _ Hpop) as [_ Hx];
    [cbn; lia | cbn; lia | by rewrite ledger_set_heap |].
  specialize (Hx Hns). rewrite ledger_set_heap in Hx.
  cbn [set_heap aize_mem_bound] in Hx.
  destruct (ret_obj sc =? 0).
  - subst s'. by rewrite app_nil_r.
  - pose proof (pop_mem_ok _ _ _ Hpop) as (_ & _ & Hl1 & _).
    cbn [set_heap aize_mem_bound] in Hl1. rewrite size_t_small in Hl1 by lia.
    rewrite (add_mem_ledger _ _ _ Hret) by lia. by rewrite Hx.
Qed.

Lemma collect_ledger_after_witness :
  exists s', aize_mem_collect returning_top = Ok s' /\
    ledger returning_top = [Ptr 1; Ptr 2; Ptr 3] /\
    ledger s' = [Ptr 2].
Proof.
  destruct (aize_mem_collect returning_top) as [s'|f] eqn:E; [| by vm_compute in E].
  destruct (snd (collect_scan returning_top)) as [sc|f] eqn:Esc;
    [| by vm_compute in Esc].
  destruct (collect_ledger_after returning_top s' sc E Esc) as [_ Hl];
    [by vm_compute | by vm_compute | intros l [= <-]; by vm_compute
    | by vm_compute |].
  exists s'. split; [reflexivity |]. split; [by vm_compute |].
  rewrite Hl. vm_compute in Esc. injection Esc as <-. reflexivity.
Defined.

Lemma collect_loop_ret n cur a sc t sc' :
  collect_loop n cur a sc = (t, Ok sc') ->
  (ret_obj sc = 0 \/
   exists b, scan_heap sc !! ret_obj sc = Some b /\
     depth (blk_hdr b) = Some (uint32_t (cur - 1))) ->
  ret_obj sc' = 0 \/
  exists b, scan_heap sc' !! ret_obj sc' = Some b /\
    depth (blk_hdr b) = Some (uint32_t (cur - 1)).
Proof.
  revert sc t. induction n as [|n IH]; intros sc t H Hinv.
  - by inversion H; subst.
  - apply collect_loop_S in H
      as (obj & d & _ & Hld & [(_ & _ & t' & _ & H) | [(-> & _ & _ & t' & _ & H) | (_ & _ & _ & ->)]]).
    + by apply IH in H.
    + apply IH in H; [done |]. right. cbn [ret_obj scan_heap].
      apply load_depth_ok in Hld as (_ & b0 & Hb0 & _).
      unfold store_depth. rewrite lookup_alter_eq, Hb0. cbn. by eexists.
    + done.
Qed.

(** X15. When a collection completes and its scan found a returned object,
    that object carries the current depth minus one afterwards and is the
    top entry of the ledger (capacity at most 512). *)
Theorem collect_promotes s s' sc :
  aize_mem_collect s = Ok s' ->
  snd (collect_scan s) = Ok sc ->
  ret_obj sc <> 0 ->
  0 <= len (aize_mem_bound s) < 2 ^ 31 ->
  no_shrink (aize_mem_bound s) ->
  (forall l, arr (aize_mem_bound s) = Some l -> Z.of_nat (length l) < 2 ^ 61) ->
  Z.of_nat (length (ledger s)) = len (aize_mem_bound s) ->
  last (ledger s') = Some (Ptr (ret_obj sc)) /\
  exists b, heap s' !! ret_obj sc = Some b /\
    depth (blk_hdr b) = Some (uint32_t (aize_mem_depth s - 1)).
Proof.
  intros H Hsc Hret Hlen Hns Hfit Hall.
  pose proof (collect_ok _ _ H) as (sc0 & s1 & Hsc0 & Hpop & Hadd & Hheap & _).
  rewrite Hsc in Hsc0. injection Hsc0 as <-.
  destruct (ret_obj sc =? 0) eqn:E; [apply Z.eqb_eq in E; done |].
  split.
  - assert (Hk : 0 <= num_to_pop sc <= len (aize_mem_bound s) + 1).
    { unfold collect_scan in Hsc. rewrite int_of_size_t_small in Hsc by done.
      destruct (collect_loop _ _ _ _) as [t r] eqn:EL. cbn [snd] in Hsc. subst r.
      pose proof (collect_loop_count _ _ _ _ _ _ EL) as [Hk _].
      cbn [num_to_pop] in Hk. lia. }
    rewrite size_t_small in Hpop by lia.
    assert (Hkl : num_to_pop sc <= len (aize_mem_bound s)).
    { destruct (Z.le_gt_cases (num_to_pop sc) (len (aize_mem_bound s))); [done |].
      destruct (pop_mem_overrun (num_to_pop sc) (set_heap (scan_heap sc) s))
        as [HF|HF]; [cbn; lia | lia | done | |]; rewrite HF in Hpop; done. }
    pose proof (pop_mem_ok _ _ _ Hpop) as (_ & _ & Hl1 & _).
    cbn [set_heap aize_mem_bound] in Hl1. rewrite size_t_small in Hl1 by lia.
    rewrite (add_mem_ledger _ _ _ Hadd) by lia. apply last_snoc.
  - rewrite Hheap. unfold collect_scan in Hsc.
    destruct (collect_loop _ _ _ _) as [t r] eqn:EL. cbn [snd] in Hsc. subst r.
    apply collect_loop_ret in EL as [E0 | Hb]; [done | done |].
    cbn [ret_obj]. by left.
Qed.

Lemma collect_promotes_witness :
  exists s', aize_mem_collect returning_top = Ok s' /\
    last (ledger s') = Some (Ptr 2) /\
    exists b, heap s' !! 2 = Some b /\ depth (blk_hdr b) = Some 1.
Proof.
  destruct (aize_mem_collect returning_top) as [s'|f] eqn:E; [| by vm_compute in E].
  destruct (snd (collect_scan returning_top)) as [sc|f] eqn:Esc;
    [| by vm_compute in Esc].
  assert (Hr : ret_obj sc = 2) by (vm_compute in Esc; by injection Esc as <-).
  destruct (collect_promotes returning_top s' sc E Esc) as [Hl Hb];
    [rewrite Hr; lia | by vm_compute | by vm_compute
    | intros l [= <-]; by vm_compute | by vm_compute |].
  rewrite Hr in Hl, Hb. exists s'. split; [reflexivity |]. split; [exact Hl | exact Hb].
Defined.

(** X16. An exit that completes lowers the depth counter by one modulo
    2^32, with no floor: from depth 0 it goes to 2^32 - 1.  After an enter
    it therefore gives back the depth counter there was before the enter. *)
Theorem exit_depth s s' :
  aize_mem_exit s = Ok s' ->
  aize_mem_depth s' = uint32_t (aize_mem_depth s - 1) /\
  (forall s0, s = aize_mem_enter s0 -> 0 <= aize_mem_depth s0 < 2 ^ 32 ->
     aize_mem_depth s' = aize_mem_depth s0).
Proof.
  unfold aize_mem_exit. intros H.
  apply bind_ok in H as (s1 & Hc & [= <-]).
  apply collect_ok in Hc as (_ & _ & _ & _ & _ & _ & Hd).
  cbn [set_depth aize_mem_depth]. rewrite Hd. split; [done |].
  intros s0 -> Hr. unfold aize_mem_enter. cbn [set_depth aize_mem_depth].
  unfold uint32_t. rewrite Zminus_mod_idemp_l.
  replace (aize_mem_depth s0 + 1 - 1) with (aize_mem_depth s0) by lia.
  apply Z.mod_small. lia.
Qed.

Lemma exit_depth_witness :
  exists s', aize_mem_exit returning_top = Ok s' /\ aize_mem_depth s' = 1.
Proof.
  destruct (aize_mem_exit returning_top) as [s'|f] eqn:E; [| by vm_compute in E].
  destruct (exit_depth returning_top s' E) as [Hd _].
  exists s'. split; [reflexivity | exact Hd].
Defined.

(** Truncating nothing changes nothing when the shrink test cannot pass. *)
Lemma pop_mem_zero s :
  no_shrink (aize_mem_bound s) ->
  0 <= len (aize_mem_bound s) < 2 ^ 64 ->
  aize_mem_pop_mem 0 s = Ok s.
Proof.
  unfold no_shrink. destruct s as [[c n ar] dp h av].
  cbn [aize_mem_bound len capacity]. intros Hns Hlen.
  unfold aize_mem_pop_mem, memset_null.
  cbn [aize_mem_bound len capacity arr]. change (size_t (0 * sizeof_ptr)) with 0.
  cbn [Z.eqb bind]. rewrite !Z.sub_0_r, !(size_t_small n) by lia.
  assert (Hc : (SCALE_FACTOR * START_SIZE <? c) = false) by (apply Z.ltb_ge; lia).
  rewrite Hc. reflexivity.
Qed.

(** X17. A scope without allocations leaves the whole state as it was when
    the cell above the top of the ledger refers to an object of an enclosing
    scope (depth between 1 and the depth before the enter) and the capacity
    is at most 512: the scan stops at that cell and nothing is removed. *)
Theorem empty_scope_identity s p d :
  0 <= len (aize_mem_bound s) < 2 ^ 31 ->
  0 <= aize_mem_depth s -> aize_mem_depth s + 1 < 2 ^ 32 ->
  no_shrink (aize_mem_bound s) ->
  load_slot (arr (aize_mem_bound s)) (len (aize_mem_bound s)) = Ok p ->
  load_depth p (heap s) = Ok d ->
  0 < d <= aize_mem_depth s ->
  aize_mem_exit (aize_mem_enter s) = Ok s.
Proof.
  intros Hlen Hd0 Hd1 Hns Hslot Hdepth Hd.
  assert (Hcur : uint32_t (aize_mem_depth s + 1) = aize_mem_depth s + 1)
    by (unfold uint32_t; apply Z.mod_small; lia).
  assert (Hscan : collect_scan (aize_mem_enter s)
                  = ([len (aize_mem_bound s)], Ok (mkScan 0 0 (heap s)))).
  { unfold collect_scan, aize_mem_enter.
    cbn [set_depth aize_mem_bound aize_mem_depth heap].
    rewrite int_of_size_t_small by done.
    replace (Z.to_nat (len (aize_mem_bound s) + 1))
      with (S (Z.to_nat (len (aize_mem_bound s)))) by lia.
    cbn [collect_loop]. rewrite Z2Nat.id by lia. rewrite Hslot.
    cbn [scan_heap]. rewrite Hdepth, Hcur.
    destruct (_ <=? d) eqn:E1; [apply Z.leb_le in E1; lia |].
    destruct (d =? 0) eqn:E2; [apply Z.eqb_eq in E2; lia |]. done. }
  unfold aize_mem_exit, aize_mem_collect. rewrite Hscan.
  cbn [snd bind num_to_pop ret_obj scan_heap]. change (size_t 0) with 0.
  rewrite pop_mem_zero; [| done | cbn; lia].
  cbn [Z.eqb bind]. f_equal. unfold aize_mem_enter.
  cbn [set_heap set_depth aize_mem_bound aize_mem_depth heap avail].
  rewrite Hcur, Z.add_simpl_r.
  replace (uint32_t (aize_mem_depth s)) with (aize_mem_depth s)
    by (unfold uint32_t; rewrite Z.mod_small; lia).
  by destruct s.
Qed.

Lemma empty_scope_identity_witness :
  aize_mem_exit (aize_mem_enter stale_top) = Ok stale_top.
Proof.
  apply (empty_scope_identity stale_top 3 2);
    [by vm_compute | by vm_compute | by vm_compute | by vm_compute
    | reflexivity | reflexivity | by vm_compute].
Defined.

End CollectMore.
